(** * generate_cards.py: flashcard suggestions from sectioned text

    A shallow embedding of [generate_cards.py] and of the parts of the
    Python runtime it relies on (text as sequences of code points, the
    [utf-8] codec, [str.split], [str.replace], the [re] pattern of
    [SECTION_REGEX], the [csv] writer), followed by the properties of the
    sectioner, the card generator, the writer and the command line. *)

From Stdlib Require Import ZArith List Bool Lia PeanoNat.
From Stdlib Require String Ascii.
Import ListNotations.
Import String.StringSyntax.
Delimit Scope string_scope with string.

(** ** Text *)

(** A Python [str] is a sequence of Unicode code points; [len] is the number
    of code points. *)
Definition char := Z.
Definition str := list char.

(** ** The utf-8 codec (strict error handling) *)
Module Utf8.
Local Open Scope Z_scope.

Definition is_surrogate (c : char) : bool := (0xD800 <=? c) && (c <=? 0xDFFF).

(** What the codec can encode: a Unicode scalar value. *)
Definition scalar (c : char) : bool :=
  (0 <=? c) && (c <? 0x110000) && negb (is_surrogate c).

Definition encode_char (c : char) : option (list Z) :=
  if (0 <=? c) && (c <? 0x80) then Some [c]
  else if (0x80 <=? c) && (c <? 0x800) then
    Some [0xC0 + c / 64; 0x80 + c mod 64]
  else if (0x800 <=? c) && (c <? 0x10000) then
    if is_surrogate c then None
    else Some [0xE0 + c / 4096; 0x80 + (c / 64) mod 64; 0x80 + c mod 64]
  else if (0x10000 <=? c) && (c <? 0x110000) then
    Some [0xF0 + c / 262144; 0x80 + (c / 4096) mod 64;
          0x80 + (c / 64) mod 64; 0x80 + c mod 64]
  else None.

(** [None] is [UnicodeEncodeError]. *)
Fixpoint encode (s : str) : option (list Z) :=
  match s with
  | [] => Some []
  | c :: t =>
      match encode_char c, encode t with
      | Some bs, Some r => Some (bs ++ r)
      | _, _ => None
      end
  end.

Definition continuation (b : Z) : bool := (0x80 <=? b) && (b <? 0xC0).

(** [None] is [UnicodeDecodeError]: a stray or missing continuation byte, an
    overlong form, a surrogate, or a value past U+10FFFF. *)
Fixpoint decode (bs : list Z) : option str :=
  match bs with
  | [] => Some []
  | b0 :: r0 =>
      if (0 <=? b0) && (b0 <? 0x80) then option_map (cons b0) (decode r0)
      else if (0xC0 <=? b0) && (b0 <? 0xE0) then
        match r0 with
        | b1 :: r1 =>
            let c := (b0 - 0xC0) * 64 + (b1 - 0x80) in
            if continuation b1 && (0x80 <=? c)
            then option_map (cons c) (decode r1) else None
        | _ => None
        end
      else if (0xE0 <=? b0) && (b0 <? 0xF0) then
        match r0 with
        | b1 :: b2 :: r2 =>
            let c := (b0 - 0xE0) * 4096 + (b1 - 0x80) * 64 + (b2 - 0x80) in
            if continuation b1 && continuation b2 && (0x800 <=? c)
               && negb (is_surrogate c)
            then option_map (cons c) (decode r2) else None
        | _ => None
        end
      else if (0xF0 <=? b0) && (b0 <? 0xF8) then
        match r0 with
        | b1 :: b2 :: b3 :: r3 =>
            let c := (b0 - 0xF0) * 262144 + (b1 - 0x80) * 4096
                     + (b2 - 0x80) * 64 + (b3 - 0x80) in
            if continuation b1 && continuation b2 && continuation b3
               && (0x10000 <=? c) && (c <? 0x110000)
            then option_map (cons c) (decode r3) else None
        | _ => None
        end
      else None
  end.

Definition bytes_of_string (s : String.string) : list Z :=
  map (fun a => Z.of_N (Ascii.N_of_ascii a)) (String.list_ascii_of_string s).

End Utf8.

(** A text literal of this file: the code points of a utf-8 string
    constant, as the Python source file is read. *)
Definition lit (s : String.string) : str :=
  match Utf8.decode (Utf8.bytes_of_string s) with
  | Some l => l
  | None => []
  end.
Arguments lit s%_string.

(** ** Character classes of the interpreter (CPython 3.11, Unicode 14.0) *)
Module Unicode.
Local Open Scope Z_scope.

Definition in_ranges (tbl : list (Z * Z)) (c : char) : bool :=
  existsb (fun r => (fst r <=? c) && (c <=? snd r)) tbl.

(** [Py_UNICODE_ISSPACE]: what [str.split], [str.strip] and [\s] treat as
    white space. *)
Definition whitespace : list (Z * Z) :=
  [ (0x09, 0x0D); (0x1C, 0x20); (0x85, 0x85); (0xA0, 0xA0);
    (0x1680, 0x1680); (0x2000, 0x200A); (0x2028, 0x2029);
    (0x202F, 0x202F); (0x205F, 0x205F); (0x3000, 0x3000) ].

Definition isspace (c : char) : bool := in_ranges whitespace c.

(** [Py_UNICODE_ISDECIMAL]: what [\d] matches in a [str] pattern (general
    category Nd). *)
Definition decimal : list (Z * Z) :=
  [ (0x30, 0x39); (0x660, 0x669); (0x6F0, 0x6F9); (0x7C0, 0x7C9);
    (0x966, 0x96F); (0x9E6, 0x9EF); (0xA66, 0xA6F); (0xAE6, 0xAEF);
    (0xB66, 0xB6F); (0xBE6, 0xBEF); (0xC66, 0xC6F); (0xCE6, 0xCEF);
    (0xD66, 0xD6F); (0xDE6, 0xDEF); (0xE50, 0xE59); (0xED0, 0xED9);
    (0xF20, 0xF29); (0x1040, 0x1049); (0x1090, 0x1099); (0x17E0, 0x17E9);
    (0x1810, 0x1819); (0x1946, 0x194F); (0x19D0, 0x19D9); (0x1A80, 0x1A89);
    (0x1A90, 0x1A99); (0x1B50, 0x1B59); (0x1BB0, 0x1BB9); (0x1C40, 0x1C49);
    (0x1C50, 0x1C59); (0xA620, 0xA629); (0xA8D0, 0xA8D9); (0xA900, 0xA909);
    (0xA9D0, 0xA9D9); (0xA9F0, 0xA9F9); (0xAA50, 0xAA59); (0xABF0, 0xABF9);
    (0xFF10, 0xFF19); (0x104A0, 0x104A9); (0x10D30, 0x10D39);
    (0x11066, 0x1106F); (0x110F0, 0x110F9); (0x11136, 0x1113F);
    (0x111D0, 0x111D9); (0x112F0, 0x112F9); (0x11450, 0x11459);
    (0x114D0, 0x114D9); (0x11650, 0x11659); (0x116C0, 0x116C9);
    (0x11730, 0x11739); (0x118E0, 0x118E9); (0x11950, 0x11959);
    (0x11C50, 0x11C59); (0x11D50, 0x11D59); (0x11DA0, 0x11DA9);
    (0x16A60, 0x16A69); (0x16AC0, 0x16AC9); (0x16B50, 0x16B59);
    (0x1D7CE, 0x1D7FF); (0x1E140, 0x1E149); (0x1E2F0, 0x1E2F9);
    (0x1E950, 0x1E959); (0x1FBF0, 0x1FBF9) ].

Definition isdecimal (c : char) : bool := in_ranges decimal c.

Definition LF : char := 10.
Definition CR : char := 13.

End Unicode.

(** ** Exceptions and fallible results *)

Inductive exn : Type :=
| ValueError (msg : str)
| FileNotFoundError (path : str)
| UnicodeEncodeError
| OSError (msg : str)
| SystemExit (code : Z).

Inductive result (A : Type) : Type :=
| Ok (a : A)
| Raise (e : exn).
Arguments Ok {A} a.
Arguments Raise {A} e.

Definition bind {A B} (r : result A) (f : A -> result B) : result B :=
  match r with
  | Ok a => f a
  | Raise e => Raise e
  end.

Declare Scope py_scope.
Delimit Scope py_scope with py.
Notation "x <- r ;; k" := (bind r (fun x => k))
  (at level 61, r at next level, right associativity) : py_scope.
Open Scope py_scope.

(** ** The [str] methods the program calls *)
Module PyStr.

(** [s.startswith(p)] for one prefix. *)
Fixpoint startswith (s p : str) {struct p} : bool :=
  match p, s with
  | [], _ => true
  | _ :: _, [] => false
  | a :: p', b :: s' => Z.eqb a b && startswith s' p'
  end.

(** [s.startswith(ps)] for a tuple of prefixes. *)
Definition startswith_any (s : str) (ps : list str) : bool :=
  existsb (startswith s) ps.

(** [s.split()]: the maximal runs of characters that are not white space,
    in order. [cur] is the run being scanned. *)
Fixpoint split_from (cur s : str) : list str :=
  match s with
  | [] => match cur with [] => [] | _ => [cur] end
  | c :: t =>
      if Unicode.isspace c
      then match cur with
           | [] => split_from [] t
           | _ => cur :: split_from [] t
           end
      else split_from (cur ++ [c]) t
  end.

Definition split (s : str) : list str := split_from [] s.

(** [sep.join(l)]. *)
Fixpoint join (sep : str) (l : list str) : str :=
  match l with
  | [] => []
  | [x] => x
  | x :: r => x ++ sep ++ join sep r
  end.

(** [s.split(d)] for a one-character separator [d]: the pieces between
    separators, empty ones kept. *)
Fixpoint split_on (d : char) (cur s : str) : list str :=
  match s with
  | [] => [cur]
  | c :: t => if Z.eqb c d then cur :: split_on d [] t
              else split_on d (cur ++ [c]) t
  end.

Fixpoint lstrip (s : str) : str :=
  match s with
  | c :: t => if Unicode.isspace c then lstrip t else s
  | [] => []
  end.

(** [s.strip()]. *)
Definition strip (s : str) : str := rev (lstrip (rev (lstrip s))).

(** [s.replace(old, new, 1)]: the leftmost occurrence of [old] is replaced;
    [s] comes back unchanged when there is none. *)
Fixpoint replace_first (s old new : str) : str :=
  if startswith s old then new ++ skipn (length old) s
  else match s with
       | [] => []
       | c :: t => c :: replace_first t old new
       end.

(** [max(words, key=len)]: the first of the longest items; [ValueError] on
    an empty sequence. *)
Definition max_by_len (words : list str) : result str :=
  match words with
  | [] => Raise (ValueError (lit "max() arg is an empty sequence"))
  | w :: ws =>
      Ok (fold_left
            (fun best x => if length best <? length x then x else best)
            ws w)
  end.

(** [a == b]. *)
Fixpoint eqb (a b : str) : bool :=
  match a, b with
  | [], [] => true
  | x :: a', y :: b' => Z.eqb x y && eqb a' b'
  | _, _ => false
  end.

(** Truth value of a [str]. *)
Definition truthy (s : str) : bool :=
  match s with [] => false | _ => true end.

End PyStr.

(** ** Regular expressions: the backtracking matcher of [re] *)
Module Re.

Inductive regex : Type :=
| Class (p : char -> bool)        (* one character of a class *)
| Cat (r1 r2 : regex)             (* r1 r2 *)
| Star (r : regex)                (* r*, greedy *)
| Group (i : nat) (r : regex).    (* capturing group number i *)

(** [r+] is [r r*]. *)
Definition Plus (r : regex) : regex := Cat r (Star r).

(** Captured groups, most recent first. *)
Definition groups := list (nat * str).

Fixpoint group (g : groups) (i : nat) : option str :=
  match g with
  | [] => None
  | (j, v) :: g' => if Nat.eqb i j then Some v else group g' i
  end.

(** What is left to match after a sub-pattern: the rest of the text and
    the groups so far. *)
Definition cont := str -> groups -> option groups.

(** Greedy repetition: try the body once more, keep going from where it
    stopped, and fall back to leaving the loop when that fails. An
    iteration must consume text, so at most [length s] of them happen and
    the counter [n], set to [S (length s)], never runs out. *)
Fixpoint star_loop (body : str -> groups -> cont -> option groups)
    (n : nat) (s : str) (g : groups) (k : cont) : option groups :=
  match n with
  | O => k s g
  | S n' =>
      match body s g (fun s' g' =>
                        if length s' <? length s
                        then star_loop body n' s' g' k else None) with
      | Some r => Some r
      | None => k s g
      end
  end.

Fixpoint run (r : regex) : str -> groups -> cont -> option groups :=
  match r with
  | Class p => fun s g k =>
      match s with
      | c :: s' => if p c then k s' g else None
      | [] => None
      end
  | Cat r1 r2 => fun s g k => run r1 s g (fun s' g' => run r2 s' g' k)
  | Star r1 => fun s g k => star_loop (run r1) (S (length s)) s g k
  | Group i r1 => fun s g k =>
      run r1 s g (fun s' g' =>
                    k s' ((i, firstn (length s - length s') s) :: g'))
  end.

(** [pattern.match(s)]: a match anchored at the start of [s]. *)
Definition match_ (r : regex) (s : str) : option groups :=
  run r s [] (fun _ g => Some g).

(** The classes [\d], [\s], [\.] and [.] (any character but a line feed). *)
Definition digit : regex := Class Unicode.isdecimal.
Definition space : regex := Class Unicode.isspace.
Definition period : regex := Class (Z.eqb 46).
Definition any : regex := Class (fun c => negb (Z.eqb c Unicode.LF)).

End Re.

(** ** generate_cards.py *)

(** [SECTION_REGEX]: the pattern [^ ( \d+ ( \. \d+ )* ) \. \s* ( .+ )],
    written here with spaces between its parts. The anchor [^] is the
    anchoring of [match_]. *)
Definition SECTION_REGEX : Re.regex :=
  Re.Cat (Re.Group 1
            (Re.Cat (Re.Plus Re.digit)
                    (Re.Star (Re.Group 2 (Re.Cat Re.period (Re.Plus Re.digit))))))
    (Re.Cat Re.period
       (Re.Cat (Re.Star Re.space)
               (Re.Group 3 (Re.Plus Re.any)))).

Definition DEFINITION_STARTERS : list str :=
  [ lit "Es denomina"; lit "És"; lit "Es produeix";
    lit "La"; lit "El"; lit "Els"; lit "Les" ].

(** [str(x)] of a group inside an f-string. *)
Definition format_group (o : option str) : str :=
  match o with
  | Some s => s
  | None => lit "None"
  end.

(** One turn of the loop of [detect_sections] on the state
    [(current_section, result)]. *)
Definition detect_step (st : str * list (str * str)) (p : str)
  : str * list (str * str) :=
  let '(current_section, result) := st in
  match Re.match_ SECTION_REGEX p with
  | Some m =>
      (format_group (Re.group m 1) ++ lit " " ++ format_group (Re.group m 3),
       result)
  | None => (current_section, result ++ [(current_section, p)])
  end.

Definition detect_sections (paragraphs : list str) : list (str * str) :=
  snd (fold_left detect_step paragraphs (lit "General", [])).

Definition is_definition (sentence : str) : bool :=
  PyStr.startswith_any sentence DEFINITION_STARTERS
  && (8 <? length (PyStr.split sentence)).

Definition generate_basic_card (sentence : str) : str * str :=
  let words := PyStr.split sentence in
  let key := PyStr.join (lit " ") (firstn 5 words) ++ lit "..." in
  let front := lit "Defineix: " ++ key in
  let back := sentence in
  (front, back).

(** [None] is Python's [None]. *)
Definition generate_cloze (sentence : str) : result (option str) :=
  let words := PyStr.split sentence in
  if length words <? 10 then Ok None
  else
    key_word <- PyStr.max_by_len words ;;
    if length key_word <? 6 then Ok None
    else Ok (Some (PyStr.replace_first sentence key_word
                     (lit "{{c1::" ++ key_word ++ lit "}}"))).

(** A card: the dict with the five keys that [generate_cards] builds. *)
Record card : Type := Card {
  type : str;
  front : str;
  back : str;
  section : str;
  approved : str
}.

(** One turn of the loop of [generate_cards] on the list [cards]. *)
Definition cards_step (cards : list card) (item : str * str)
  : result (list card) :=
  let '(section, sentence) := item in
  let cards :=
    if is_definition sentence then
      let '(front, back) := generate_basic_card sentence in
      cards ++ [ {| type := lit "basic"; front := front; back := back;
                    section := section; approved := lit "no" |} ]
    else cards in
  cloze <- generate_cloze sentence ;;
  match cloze with
  | Some text =>
      if PyStr.truthy text then
        Ok (cards ++ [ {| type := lit "cloze"; front := text; back := [];
                          section := section; approved := lit "no" |} ])
      else Ok cards
  | None => Ok cards
  end.

Fixpoint cards_loop (cards : list card) (sectioned_text : list (str * str))
  : result (list card) :=
  match sectioned_text with
  | [] => Ok cards
  | item :: rest =>
      cards' <- cards_step cards item ;;
      cards_loop cards' rest
  end.

Definition generate_cards (sectioned_text : list (str * str))
  : result (list card) :=
  cards_loop [] sectioned_text.

(** ** The csv module, excel dialect: comma as delimiter, the double quote
    as quote character, written twice inside a quoted field, minimal
    quoting, line terminator CR LF *)
Module Csv.
Local Open Scope Z_scope.

Definition delimiter : char := 44.
Definition quotechar : char := 34.
Definition lineterminator : str := [Unicode.CR; Unicode.LF].

(** *** Writer *)

(** The characters that make the writer quote a field. *)
Definition special (c : char) : bool :=
  (c =? delimiter) || (c =? quotechar) || existsb (Z.eqb c) lineterminator.

(** The field's characters, each quote character doubled. *)
Definition field_data (f : str) : str :=
  flat_map (fun c => if c =? quotechar then [quotechar; c] else [c]) f.

(** One field as it is put in the record ([join_append]). *)
Definition join_append (f : str) (quoted : bool) : str :=
  if quoted || existsb special f
  then [quotechar] ++ field_data f ++ [quotechar]
  else f.

Fixpoint join_fields (fields : list str) : str :=
  match fields with
  | [] => []
  | [f] => join_append f false
  | f :: r => join_append f false ++ [delimiter] ++ join_fields r
  end.

(** [writer.writerow(fields)]: the line handed to the file's [write]. A
    record that would be empty (one empty field) is written as a pair of
    quotes. *)
Definition writerow (fields : list str) : str :=
  let rec := join_fields fields in
  let rec := match fields, rec with
             | _ :: _, [] => join_append [] true
             | _, _ => rec
             end in
  rec ++ lineterminator.

(** *** Reader *)

Inductive state : Type :=
| START_RECORD | START_FIELD | IN_FIELD | IN_QUOTED_FIELD
| QUOTE_IN_QUOTED_FIELD | EAT_CRNL.

(** What the parser is fed: a character of a line, or the mark at the end
    of each line. *)
Inductive sym : Type :=
| Ch (c : char)
| EOL.

Record parser : Type := Parser {
  st : state;
  field : str;          (* the field being collected *)
  fields : list str     (* the fields of the record so far *)
}.

Definition reset : parser := Parser START_RECORD [] [].

Definition save_field (p : parser) (s : state) : parser :=
  Parser s [] (fields p ++ [field p]).

(** [None] is [csv.Error]: field larger than the field limit. *)
Definition add_char (limit : nat) (p : parser) (c : char) (s : state)
  : option parser :=
  if (limit <=? length (field p))%nat then None
  else Some (Parser s (field p ++ [c]) (fields p)).

Definition newline (c : char) : bool := (c =? Unicode.LF) || (c =? Unicode.CR).

(** [parse_process_char]. [None] is [csv.Error]. *)
Definition process_char (limit : nat) (p : parser) (x : sym) : option parser :=
  match st p, x with
  | START_RECORD, EOL => Some p
  | (START_RECORD | START_FIELD), Ch c =>
      if (match st p with START_RECORD => newline c | _ => false end)
      then Some (Parser EAT_CRNL (field p) (fields p))
      else if newline c then Some (save_field p EAT_CRNL)
      else if c =? quotechar then Some (Parser IN_QUOTED_FIELD (field p) (fields p))
      else if c =? delimiter then Some (save_field p START_FIELD)
      else add_char limit p c IN_FIELD
  | START_FIELD, EOL => Some (save_field p START_RECORD)
  | IN_FIELD, EOL => Some (save_field p START_RECORD)
  | IN_FIELD, Ch c =>
      if newline c then Some (save_field p EAT_CRNL)
      else if c =? delimiter then Some (save_field p START_FIELD)
      else add_char limit p c IN_FIELD
  | IN_QUOTED_FIELD, EOL => Some p
  | IN_QUOTED_FIELD, Ch c =>
      if c =? quotechar
      then Some (Parser QUOTE_IN_QUOTED_FIELD (field p) (fields p))
      else add_char limit p c IN_QUOTED_FIELD
  | QUOTE_IN_QUOTED_FIELD, EOL => Some (save_field p START_RECORD)
  | QUOTE_IN_QUOTED_FIELD, Ch c =>
      if c =? quotechar then add_char limit p c IN_QUOTED_FIELD
      else if c =? delimiter then Some (save_field p START_FIELD)
      else if newline c then Some (save_field p EAT_CRNL)
      else add_char limit p c IN_FIELD
  | EAT_CRNL, EOL => Some (Parser START_RECORD (field p) (fields p))
  | EAT_CRNL, Ch c => if newline c then Some p else None
  end.

(** The text as the reader receives it from a file opened with
    an empty [newline] argument (no translation): line by line, a line ending after LF, after CR LF, or
    after a CR that no LF follows, each line followed by the mark [EOL]. *)
Fixpoint symbols (s : str) : list sym :=
  match s with
  | [] => []
  | c :: t =>
      if c =? Unicode.LF then Ch c :: EOL :: symbols t
      else if c =? Unicode.CR then
        match t with
        | c' :: t' =>
            if c' =? Unicode.LF then Ch c :: Ch c' :: EOL :: symbols t'
            else Ch c :: EOL :: symbols t
        | [] => [Ch c; EOL]
        end
      else
        match t with
        | [] => [Ch c; EOL]
        | _ => Ch c :: symbols t
        end
  end.

(** The records the reader yields: a record is complete when the parser is
    back in [START_RECORD] at the end of a line; input that ends inside a
    record yields what was collected. *)
Fixpoint records (limit : nat) (p : parser) (input : list sym)
  : option (list (list str)) :=
  match input with
  | [] =>
      match field p, st p with
      | [], START_RECORD => Some []
      | [], IN_QUOTED_FIELD | _ :: _, _ => Some [fields p ++ [field p]]
      | [], _ => Some []
      end
  | x :: rest =>
      match process_char limit p x with
      | None => None
      | Some p' =>
          match x, st p' with
          | EOL, START_RECORD =>
              option_map (cons (fields p')) (records limit reset rest)
          | _, _ => records limit p' rest
          end
      end
  end.

(** [list(csv.reader(f))] for a text [s]. *)
Definition reader (limit : nat) (s : str) : option (list (list str)) :=
  records limit reset (symbols s).

End Csv.

(** ** The file system and the console, as far as the program uses them

    The module creates the directory [output] when it is loaded, before
    [main] runs; the world below is the one [main] starts in, and
    [output_writable] says whether [OUTPUT_FILE] can be opened for writing
    in it. *)

Record world : Type := World {
  existing : str -> bool;          (* Path(p).exists() *)
  output_writable : bool;          (* OUTPUT_FILE can be opened for writing *)
  output_file : option (list Z);   (* bytes of OUTPUT_FILE, when it is there *)
  stdout : list str                (* the lines printed so far *)
}.

(** A computation on the world that may raise. *)
Definition io (A : Type) : Type := world -> result A * world.

Definition ret {A} (a : A) : io A := fun w => (Ok a, w).
Definition raise {A} (e : exn) : io A := fun w => (Raise e, w).
Definition lift {A} (r : result A) : io A := fun w => (r, w).
Definition io_bind {A B} (m : io A) (f : A -> io B) : io B :=
  fun w => match m w with
           | (Ok a, w') => f a w'
           | (Raise e, w') => (Raise e, w')
           end.

Declare Scope io_scope.
Delimit Scope io_scope with io.
Notation "x <~ m ;; k" := (io_bind m (fun x => k))
  (at level 61, m at next level, right associativity) : io_scope.
Notation "m ;;; k" := (io_bind m (fun _ => k))
  (at level 61, right associativity) : io_scope.

Definition print (line : str) : io unit :=
  fun w => (Ok tt, World (existing w) (output_writable w) (output_file w)
                         (stdout w ++ [line])).

Definition path_exists (path : str) : io bool :=
  fun w => (Ok (existing w path), w).

Definition OUTPUT_DIR : str := lit "output".
Definition OUTPUT_FILE : str := OUTPUT_DIR ++ lit "/" ++ lit "suggested_cards.csv".

(** [open] of [OUTPUT_FILE] for writing, utf-8, no newline translation:
    the file is created or emptied. *)
Definition open_output : io unit :=
  fun w => if output_writable w
           then (Ok tt, World (existing w) (output_writable w) (Some [])
                              (stdout w))
           else (Raise (OSError OUTPUT_FILE), w).

(** [f.write(line)]: the line is encoded and added to the file; text that
    utf-8 cannot encode raises and adds nothing. *)
Definition file_write (line : str) : io unit :=
  fun w => match Utf8.encode line with
           | Some bs =>
               (Ok tt, World (existing w) (output_writable w)
                             (Some (match output_file w with
                                    | Some old => old ++ bs
                                    | None => bs
                                    end))
                             (stdout w))
           | None => (Raise UnicodeEncodeError, w)
           end.

(** [str(n)] for a length. *)
Fixpoint decimal_digits (fuel n : nat) (acc : str) : str :=
  match fuel with
  | O => acc
  | S fuel' =>
      let acc' := Z.of_nat (48 + n mod 10) :: acc in
      if n <? 10 then acc' else decimal_digits fuel' (n / 10) acc'
  end.

Definition str_of_nat (n : nat) : str := decimal_digits (S n) n [].

Open Scope io_scope.

(** [csv.DictWriter] with [fieldnames] in this order. *)
Definition fieldnames : list str :=
  [ lit "type"; lit "front"; lit "back"; lit "section"; lit "approved" ].

Definition dict_to_list (c : card) : list str :=
  [ type c; front c; back c; section c; approved c ].

Definition writeheader : io unit := file_write (Csv.writerow fieldnames).

Fixpoint writerows (cards : list card) : io unit :=
  match cards with
  | [] => ret tt
  | c :: rest =>
      file_write (Csv.writerow (dict_to_list c)) ;;;
      writerows rest
  end.

Definition write_csv (cards : list card) : io unit :=
  open_output ;;;
  writeheader ;;;
  writerows cards.

(** ** The extractors and the command line

    The document libraries and [str.lower] are taken as they come:
    [pdf_pages path] is what [page.extract_text()] gives for each page of
    the PDF at [path] ([None] for a page without text), [docx_paragraphs
    path] the [text] of each paragraph of the DOCX at [path], [lower] the
    lower-casing of the interpreter. *)
Section CommandLine.

Variable lower : str -> str.
Variable pdf_pages : str -> result (list (option str)).
Variable docx_paragraphs : str -> result (list str).

(** [Path(path).name]: the last component that is neither empty nor a
    lone period. *)
Definition path_name (path : str) : str :=
  last (filter (fun x => negb (match x with
                               | [] => true
                               | [c] => Z.eqb c 46
                               | _ => false
                               end))
               (PyStr.split_on 47%Z [] path)) [].

(** [name.rfind] of a period, counted from the left; [None] for -1. *)
Fixpoint rfind_period (name : str) : option nat :=
  match name with
  | [] => None
  | c :: t =>
      match rfind_period t with
      | Some i => Some (S i)
      | None => if Z.eqb c 46 then Some O else None
      end
  end.

(** [Path(path).suffix]. *)
Definition suffix (path : str) : str :=
  let name := path_name path in
  match rfind_period name with
  | Some i => if (0 <? i) && (i <? length name - 1) then skipn i name else []
  | None => []
  end.

Definition lines_of_page (text : option str) : list str :=
  match text with
  | None | Some [] => []
  | Some text =>
      filter PyStr.truthy (map PyStr.strip (PyStr.split_on Unicode.LF [] text))
  end.

Definition extract_pdf (path : str) : result (list str) :=
  pages <- pdf_pages path ;;
  Ok (flat_map lines_of_page pages).

Definition extract_docx (path : str) : result (list str) :=
  paragraphs <- docx_paragraphs path ;;
  Ok (map PyStr.strip (filter (fun t => PyStr.truthy (PyStr.strip t)) paragraphs)).

Definition extract_text (path : str) : result (list str) :=
  if PyStr.eqb (lower (suffix path)) (lit ".pdf") then extract_pdf path
  else if PyStr.eqb (lower (suffix path)) (lit ".docx") then extract_docx path
  else Raise (ValueError (lit "Format no suportat. Usa PDF o DOCX.")).

(** [main()] with [sys.argv = argv]. *)
Definition main (argv : list str) : io unit :=
  if negb (length argv =? 2) then
    print (lit "Ús: python generate_cards.py <document.pdf|document.docx>") ;;;
    raise (SystemExit 1)
  else
    let path := nth 1 argv [] in
    found <~ path_exists path ;;
    if negb found then raise (FileNotFoundError path)
    else
      paragraphs <~ lift (extract_text path) ;;
      let sectioned := detect_sections paragraphs in
      cards <~ lift (generate_cards sectioned) ;;
      write_csv cards ;;;
      print (lit "✔ " ++ str_of_nat (length cards)
             ++ lit " cartes suggerides creades a " ++ OUTPUT_FILE).

End CommandLine.

(** Lower-casing of text whose cased letters are all ASCII: an instance of
    [lower] for examples. *)
Definition ascii_lower (s : str) : str :=
  map (fun c => if ((65 <=? c) && (c <=? 90))%Z then (c + 32)%Z else c) s.

(** Document libraries that find no text: instances for examples. *)
Definition no_pages (path : str) : result (list (option str)) := Ok [].
Definition no_paragraphs (path : str) : result (list str) := Ok [].

(** A world where every path exists and nothing was written yet, and one
    where no path exists. *)
Definition world_all : world := World (fun _ => true) true None [].
Definition world_none : world := World (fun _ => false) true None [].

(** ** Examples *)

(** Two cards with accents, a comma, quotes and a line break. *)
Definition sample_cards : list card :=
  [ {| type := lit "basic"; front := lit "Defineix: La fotosíntesi és el procés...";
       back := lit "La fotosíntesi és el procés, pel qual ..." ++ [34%Z]
               ++ lit "llum" ++ [34; 13; 10]%Z ++ lit "química.";
       section := lit "2.3 Les reaccions"; approved := lit "no" |};
    {| type := lit "cloze"; front := lit "Els {{c1::ribosomes}} sintetitzen proteïnes";
       back := []; section := lit "General"; approved := lit "no" |} ].

(** The sentence of the definition example, and a small document. *)
Definition sample_sentence : str :=
  lit "La fotosíntesi és el procés pel qual les plantes converteixen llum en energia química.".

Definition sample_paragraphs : list str :=
  [ lit "Apunts de biologia"; lit "3.1. Enzims"; lit "Els enzims són proteïnes." ].

(** ** Vocabulary of the statements and of the proofs *)

(** [w] is the longest of [words], the first one among equals. *)
Definition first_longest (words : list str) (w : str) : Prop :=
  exists l1 l2, words = l1 ++ w :: l2
    /\ Forall (fun x => length x < length w) l1
    /\ Forall (fun x => length x <= length w) l2.

(** [out] is [s] with its leftmost occurrence of [w] replaced by [new],
    nothing else changed. *)
Definition first_occurrence_replaced (s w new out : str) : Prop :=
  exists pre post, s = pre ++ w ++ post
    /\ out = pre ++ new ++ post
    /\ forall pre' post', s = pre' ++ w ++ post' -> length pre <= length pre'.

(** The text is empty or ends with white space. *)
Definition space_before (pre : str) : Prop :=
  pre = [] \/ exists p c, pre = p ++ [c] /\ Unicode.isspace c = true.

(** The text is empty or starts with white space. *)
Definition space_after (post : str) : Prop :=
  match post with
  | [] => True
  | c :: _ => Unicode.isspace c = true
  end.

(** The text has no white space. *)
Definition no_space (u : str) : Prop :=
  Forall (fun c => Unicode.isspace c = false) u.

(** A paragraph is a heading when [SECTION_REGEX] matches it; the label it
    sets is group 1, a space, group 3. *)
Definition is_heading (p : str) : bool :=
  match Re.match_ SECTION_REGEX p with
  | Some _ => true
  | None => false
  end.

Definition heading_label (p : str) : option str :=
  match Re.match_ SECTION_REGEX p with
  | Some m =>
      Some (format_group (Re.group m 1) ++ lit " " ++ format_group (Re.group m 3))
  | None => None
  end.

Definition sentence_of (p : str) : bool := negb (is_heading p).

(** What one (section, sentence) pair adds to the cards. *)
Definition emitted (item : str * str) : list card :=
  match generate_cards [item] with
  | Ok cards => cards
  | Raise _ => []
  end.

(** The cloze check fires. *)
Definition cloze_fires (sentence : str) : Prop :=
  10 <= length (PyStr.split sentence)
  /\ exists w, first_longest (PyStr.split sentence) w /\ 6 <= length w.

(** The definition check fires. *)
Definition definition_fires (sentence : str) : Prop :=
  (exists p rest,
      In p [ lit "Es denomina"; lit "És"; lit "Es produeix";
             lit "La"; lit "El"; lit "Els"; lit "Les" ]
      /\ sentence = p ++ rest)
  /\ 8 < length (PyStr.split sentence).

(** The two cards a pair can give. *)
Definition basic_card (sec sentence : str) : card :=
  {| type := lit "basic";
     front := lit "Defineix: "
              ++ PyStr.join (lit " ") (firstn 5 (PyStr.split sentence))
              ++ lit "...";
     back := sentence; section := sec; approved := lit "no" |}.

Definition cloze_card (sec sentence w : str) : card :=
  {| type := lit "cloze";
     front := PyStr.replace_first sentence w (lit "{{c1::" ++ w ++ lit "}}");
     back := []; section := sec; approved := lit "no" |}.

(** The loop of [detect_sections], started with label [cur], as a
    recursion on the paragraphs. *)
Fixpoint tagged (cur : str) (paragraphs : list str) : list (str * str) :=
  match paragraphs with
  | [] => []
  | p :: rest =>
      match heading_label p with
      | Some label => tagged label rest
      | None => (cur, p) :: tagged cur rest
      end
  end.

(** [matches r s s']: pattern [r] can consume the front of [s] and leave
    [s']. *)
Inductive matches : Re.regex -> str -> str -> Prop :=
| M_class p c s : p c = true -> matches (Re.Class p) (c :: s) s
| M_cat r1 r2 s s1 s2 :
    matches r1 s s1 -> matches r2 s1 s2 -> matches (Re.Cat r1 r2) s s2
| M_star_stop r s : matches (Re.Star r) s s
| M_star_more r s s1 s2 :
    matches r s s1 -> length s1 < length s -> matches (Re.Star r) s1 s2 ->
    matches (Re.Star r) s s2
| M_group i r s s' : matches r s s' -> matches (Re.Group i r) s s'.

(** The search ends with a result that satisfies [Q]. *)
Definition succeeds (Q : Re.groups -> Prop) (o : option Re.groups) : Prop :=
  exists res, o = Some res /\ Q res.

(** The text does not start with a character of class [p]. *)
Definition not_at (p : char -> bool) (s : str) : Prop :=
  match s with
  | [] => True
  | c :: _ => p c = false
  end.

(** A decimal integer: one or more decimal digits. *)
Definition is_integer (d : str) : Prop :=
  d <> [] /\ Forall (fun c => Unicode.isdecimal c = true) d.

(** The text of the groups [.d] for the integers [d] of [ints]. *)
Definition dotted_groups (ints : list str) : str :=
  flat_map (fun d => 46%Z :: d) ints.

(** The two halves of [SECTION_REGEX] that follow the first integer: the
    repeated group 2, and the period, the white space and the label. *)
Definition G2 : Re.regex :=
  Re.Group 2 (Re.Cat Re.period (Re.Plus Re.digit)).

(** A text on which neither one more group nor the period and the label
    can match: it is empty, a lone period, or starts with something else
    than a period. *)
Definition stuck (s : str) : Prop :=
  s = [] \/ s = [46%Z] \/ exists c s', s = c :: s' /\ c <> 46%Z.

Definition LABEL : Re.regex :=
  Re.Cat Re.period (Re.Cat (Re.Star Re.space) (Re.Group 3 (Re.Plus Re.any))).

(** Text that utf-8 can encode. *)
Definition scalar_text (s : str) : Prop :=
  Forall (fun c => Utf8.scalar c = true) s.

(** The world after the output file has received [bytes]. *)
Definition written (w : world) (bytes : list Z) : world :=
  World (existing w) (output_writable w) (Some bytes) (stdout w).

(** The text that [write_csv] hands to the file, line after line. *)
Definition csv_text (cards : list card) : str :=
  Csv.writerow fieldnames
  ++ flat_map (fun c => Csv.writerow (dict_to_list c)) cards.

(** What [symbols] yields after the carriage return that precedes [s]. *)
Definition after_cr (s : str) : list Csv.sym :=
  match s with
  | c' :: t' =>
      if (c' =? Unicode.LF)%Z then Csv.Ch c' :: Csv.EOL :: Csv.symbols t'
      else Csv.EOL :: Csv.symbols s
  | [] => [Csv.EOL]
  end.

(** The parser holds the complete field [f] after the fields [fs]. *)
Definition collected (f : str) (fs : list str) (p : Csv.parser) : Prop :=
  Csv.fields p = fs
  /\ ((Csv.st p = Csv.START_FIELD /\ Csv.field p = [] /\ f = [])
      \/ (Csv.st p = Csv.IN_FIELD /\ Csv.field p = f)
      \/ (Csv.st p = Csv.QUOTE_IN_QUOTED_FIELD /\ Csv.field p = f)).

(** The executable form of the conditions on the cards. *)
Definition cards_fit (limit : nat) (cards : list card) : bool :=
  forallb (fun c =>
             forallb (fun f => forallb Utf8.scalar f && (length f <=? limit))
                     [type c; front c; back c; section c; approved c])
          cards.

(** The numbers of the capturing groups of a pattern. *)
Fixpoint group_ids (r : Re.regex) : list nat :=
  match r with
  | Re.Class _ => []
  | Re.Cat r1 r2 => group_ids r1 ++ group_ids r2
  | Re.Star r1 => group_ids r1
  | Re.Group i r1 => i :: group_ids r1
  end.

(** [g'] is [g] with captures of the groups [ids] put on top. *)
Definition extends (ids : list nat) (g g' : Re.groups) : Prop :=
  exists new, g' = new ++ g /\ Forall (fun e => In (fst e) ids) new.

(** A line as the extractors give it: not empty, with no white space at
    either end. *)
Definition trimmed (l : str) : Prop :=
  l <> [] /\ not_at Unicode.isspace l /\ not_at Unicode.isspace (rev l).

(** The text has a character that is not white space. *)
Definition has_text (t : str) : bool :=
  existsb (fun c => negb (Unicode.isspace c)) t.

(** The line that a successful run prints for [n] cards. *)
Definition success_line (n : nat) : str :=
  lit "✔ " ++ str_of_nat n ++ lit " cartes suggerides creades a " ++ OUTPUT_FILE.

(** The world with one more printed line. *)
Definition printed (w : world) (line : str) : world :=
  World (existing w) (output_writable w) (output_file w) (stdout w ++ [line]).


(** Document libraries for examples: one that fails, a DOCX of three
    paragraphs and a PDF of three pages. *)
Definition broken_pages (path : str) : result (list (option str)) :=
  Raise (OSError path).

Definition sample_docx (path : str) : result (list str) :=
  Ok [ lit "  1. Fotosíntesi "; lit "   "; sample_sentence ].

Definition sample_pdf (path : str) : result (list (option str)) :=
  Ok [ Some (lit "Apunts " ++ [10%Z] ++ lit "  de biologia"); None; Some [] ].

(** A card whose front holds a lone surrogate. *)
Definition sample_bad_card : card :=
  {| type := lit "basic"; front := [55296%Z]; back := lit "x";
     section := lit "General"; approved := lit "no" |}.

(** ** Tactics *)

(** Settles the test that an iteration has consumed text. *)
Ltac shorter :=
  match goal with
  | |- context [Nat.ltb ?a ?b] =>
      let H := fresh in
      assert (H : Nat.ltb a b = true)
        by (apply Nat.ltb_lt; simpl; rewrite ?length_app; simpl; lia);
      rewrite H; clear H
  end.

Ltac zsolve := Z.div_mod_to_equations; lia.

(** Proves the value of a test made of integer comparisons. *)
Ltac bsolve :=
  rewrite ?andb_true_iff, ?andb_false_iff, ?negb_true_iff, ?negb_false_iff,
    ?andb_true_iff, ?andb_false_iff,
    ?Z.leb_le, ?Z.ltb_lt, ?Z.leb_gt, ?Z.ltb_ge;
  zsolve.

(** Settles the test at the head of the goal. *)
Ltac head_true :=
  match goal with
  | |- (if ?b then _ else _) = _ =>
      replace b with true by (symmetry; bsolve)
  end.
Ltac head_false :=
  match goal with
  | |- (if ?b then _ else _) = _ =>
      replace b with false by (symmetry; bsolve)
  end.

(** ** Facts about text *)

Lemma startswith_iff (s p : str) :
  PyStr.startswith s p = true <-> exists rest, s = p ++ rest.
Proof.
  revert s; induction p as [|a p IH]; intros s; simpl.
  - split; [intros _; now exists s | intros _; reflexivity].
  - destruct s as [|b s].
    + split; [discriminate | intros [r Hr]; discriminate].
    + rewrite andb_true_iff, Z.eqb_eq, IH. split.
      * intros [-> [r ->]]. now exists r.
      * intros [r Hr]. injection Hr as -> ->. split; [reflexivity | now exists r].
Qed.

Lemma skipn_length_app (a b : str) : skipn (length a) (a ++ b) = b.
Proof. induction a; simpl; auto. Qed.

Lemma replace_first_cons (c : char) (s old new : str) :
  PyStr.replace_first (c :: s) old new =
  if PyStr.startswith (c :: s) old then new ++ skipn (length old) (c :: s)
  else c :: PyStr.replace_first s old new.
Proof. reflexivity. Qed.

Lemma replace_first_nil (old new : str) :
  PyStr.replace_first [] old new =
  if PyStr.startswith [] old then new ++ skipn (length old) [] else [].
Proof. reflexivity. Qed.

Lemma replace_first_absent (s old new : str) :
  (forall pre post, s <> pre ++ old ++ post) ->
  PyStr.replace_first s old new = s.
Proof.
  induction s as [|c s IH]; intros H.
  - rewrite replace_first_nil. destruct (PyStr.startswith [] old) eqn:E; [|reflexivity].
    apply startswith_iff in E as [r Hr]. exfalso. apply (H [] r). exact Hr.
  - rewrite replace_first_cons.
    destruct (PyStr.startswith (c :: s) old) eqn:E.
    + apply startswith_iff in E as [r Hr]. exfalso. apply (H [] r). exact Hr.
    + f_equal. apply IH. intros pre post Hs. apply (H (c :: pre) post).
      simpl. now rewrite Hs.
Qed.

Lemma replace_first_spec (s old new : str) :
  old <> [] ->
  (exists pre post, s = pre ++ old ++ post) ->
  first_occurrence_replaced s old new (PyStr.replace_first s old new).
Proof.
  intros Hne. induction s as [|c s IH]; intros (pre & post & Hs).
  - destruct pre; [destruct old; [congruence | discriminate] | discriminate].
  - rewrite replace_first_cons.
    destruct (PyStr.startswith (c :: s) old) eqn:E.
    + apply startswith_iff in E as [r Hr].
      exists [], r. split; [exact Hr|]. split.
      * rewrite Hr at 1. now rewrite skipn_length_app.
      * intros; simpl; lia.
    + assert (Hpre : exists pre1, pre = c :: pre1 /\ s = pre1 ++ old ++ post).
      { destruct pre as [|x pre1].
        - exfalso. simpl in Hs. assert (PyStr.startswith (c :: s) old = true).
          { apply startswith_iff. now exists post. }
          congruence.
        - injection Hs as -> ->. now exists pre1. }
      destruct Hpre as (pre1 & -> & Hs1).
      destruct IH as (p0 & q0 & Hp & Hq & Hmin); [now exists pre1, post|].
      exists (c :: p0), q0. split; [simpl; now rewrite <- Hp|]. split.
      * now rewrite Hq.
      * intros pre' post' H'. destruct pre' as [|x pre''].
        { exfalso. simpl in H'.
          assert (PyStr.startswith (c :: s) old = true).
          { apply startswith_iff. now exists post'. }
          congruence. }
        injection H' as -> H'. simpl. apply le_n_S. eapply Hmin. exact H'.
Qed.

(** Every word of [s.split()] is a piece of [s]. *)
Lemma split_from_occurs (s cur w : str) :
  In w (PyStr.split_from cur s) ->
  (exists post, cur ++ s = w ++ post) \/ (exists pre post, s = pre ++ w ++ post).
Proof.
  revert cur; induction s as [|c s IH]; intros cur H; simpl in H.
  - destruct cur; [destruct H|]. destruct H as [<- | []].
    left. exists []. reflexivity.
  - destruct (Unicode.isspace c).
    + destruct cur as [|x cur'].
      * destruct (IH [] H) as [[post Hp] | (pre & post & Hp)].
        -- right. exists [c], post. simpl in *. now rewrite Hp.
        -- right. exists (c :: pre), post. simpl. now rewrite Hp.
      * destruct H as [<- | H].
        -- left. now exists (c :: s).
        -- destruct (IH [] H) as [[post Hp] | (pre & post & Hp)].
           ++ right. exists [c], post. simpl in *. now rewrite Hp.
           ++ right. exists (c :: pre), post. simpl. now rewrite Hp.
    + destruct (IH _ H) as [[post Hp] | (pre & post & Hp)].
      * left. exists post. rewrite <- Hp, <- app_assoc. reflexivity.
      * right. exists (c :: pre), post. simpl. now rewrite Hp.
Qed.

Lemma split_occurs (s w : str) :
  In w (PyStr.split s) -> exists pre post, s = pre ++ w ++ post.
Proof.
  intros H. destruct (split_from_occurs s [] w H) as [[post Hp] | Hp].
  - exists [], post. exact Hp.
  - exact Hp.
Qed.

Lemma split_from_nonempty (s cur w : str) :
  In w (PyStr.split_from cur s) -> w <> [].
Proof.
  revert cur; induction s as [|c s IH]; intros cur H; simpl in H.
  - destruct cur; [destruct H|]. destruct H as [<- | []]. discriminate.
  - destruct (Unicode.isspace c).
    + destruct cur; [eauto|]. destruct H as [<- | H]; [discriminate | eauto].
    + eauto.
Qed.

(** ** Facts about the longest word *)

Lemma max_fold_spec (ws pre post : list str) (best : str) :
  Forall (fun x => length x < length best) pre ->
  Forall (fun x => length x <= length best) post ->
  first_longest (pre ++ best :: post ++ ws)
    (fold_left (fun best x => if length best <? length x then x else best)
               ws best).
Proof.
  revert pre post best; induction ws as [|x ws IH]; intros pre post best Hpre Hpost.
  - simpl. rewrite app_nil_r. now exists pre, post.
  - simpl. destruct (length best <? length x) eqn:E.
    + apply Nat.ltb_lt in E.
      replace (pre ++ best :: post ++ x :: ws)
        with ((pre ++ best :: post) ++ x :: [] ++ ws)
        by (rewrite <- app_assoc; reflexivity).
      apply IH; [|constructor].
      apply Forall_app; split.
      * eapply Forall_impl; [|exact Hpre]. simpl; intros; lia.
      * constructor; [exact E|].
        eapply Forall_impl; [|exact Hpost]. simpl; intros; lia.
    + apply Nat.ltb_ge in E.
      replace (pre ++ best :: post ++ x :: ws)
        with (pre ++ best :: (post ++ [x]) ++ ws)
        by (rewrite <- app_assoc; reflexivity).
      apply IH; [exact Hpre|].
      apply Forall_app; split; [exact Hpost | now constructor].
Qed.

Lemma max_by_len_spec (words : list str) :
  words <> [] ->
  exists w, PyStr.max_by_len words = Ok w /\ first_longest words w.
Proof.
  destruct words as [|w ws]; [congruence|]. intros _.
  eexists; split; [reflexivity|].
  apply (max_fold_spec ws [] [] w); constructor.
Qed.

Lemma first_longest_unique (words : list str) (w w' : str) :
  first_longest words w -> first_longest words w' -> w = w'.
Proof.
  intros (l1 & l2 & E & H1 & H2) (l1' & l2' & E' & H1' & H2').
  rewrite E in E'. apply app_eq_app in E' as [l [[Ea Eb] | [Ea Eb]]].
  - destruct l as [|x l].
    + simpl in Eb. now injection Eb.
    + injection Eb as -> Eb. subst l1 l2'.
      apply Forall_app in H1 as [_ H1]. inversion H1; subst.
      assert (In w (l ++ w :: l2)) by (apply in_or_app; right; now left).
      rewrite Forall_forall in H2'. specialize (H2' _ H). lia.
  - destruct l as [|x l].
    + simpl in Eb. now injection Eb.
    + injection Eb as -> Eb. subst l1' l2.
      apply Forall_app in H1' as [_ H1']. inversion H1'; subst.
      assert (In w' (l ++ w' :: l2')) by (apply in_or_app; right; now left).
      rewrite Forall_forall in H2. specialize (H2 _ H). lia.
Qed.

Lemma first_longest_in (words : list str) (w : str) :
  first_longest words w -> In w words.
Proof.
  intros (l1 & l2 & -> & _). apply in_or_app. right. now left.
Qed.

(** ** Words and their occurrences *)

Lemma split_from_run (u cur s : str) :
  no_space u -> PyStr.split_from cur (u ++ s) = PyStr.split_from (cur ++ u) s.
Proof.
  intros Hu. revert cur. induction Hu as [|c u Hc _ IH]; intros cur.
  - now rewrite app_nil_r.
  - cbn [app PyStr.split_from]. rewrite Hc, IH, <- app_assoc. reflexivity.
Qed.

Lemma split_from_words (s cur w : str) :
  no_space cur -> In w (PyStr.split_from cur s) -> no_space w.
Proof.
  revert cur; induction s as [|c s IH]; intros cur Hcur H; simpl in H.
  - destruct cur; [destruct H|]. now destruct H as [<- | []].
  - destruct (Unicode.isspace c) eqn:E.
    + destruct cur as [|x cur'].
      * apply (IH []); [constructor | exact H].
      * destruct H as [<- | H]; [exact Hcur|].
        apply (IH []); [constructor | exact H].
    + apply (IH (cur ++ [c])); [|exact H].
      apply Forall_app. split; [exact Hcur | now repeat constructor].
Qed.

Lemma split_from_skip (pre cur t : str) :
  pre <> [] -> space_before pre ->
  exists l, PyStr.split_from cur (pre ++ t) = l ++ PyStr.split_from [] t.
Proof.
  intros Hne [-> | (p & c & -> & Hc)]; [congruence|]. clear Hne.
  revert cur. induction p as [|x p IH]; intros cur.
  - cbn [app PyStr.split_from]. rewrite Hc.
    destruct cur; [now exists [] | now eexists [_]].
  - cbn [app PyStr.split_from]. destruct (Unicode.isspace x).
    + destruct cur as [|y cur'].
      * apply IH.
      * destruct (IH []) as (l & ->). now exists ((y :: cur') :: l).
    + apply IH.
Qed.

Lemma run_before (pre : str) :
  exists pre' a, pre = pre' ++ a /\ no_space a /\ space_before pre'.
Proof.
  induction pre as [|x pre (pre' & a & -> & Ha & Hp)] using rev_ind.
  - exists [], []. repeat split; [constructor | now left].
  - destruct (Unicode.isspace x) eqn:E.
    + exists ((pre' ++ a) ++ [x]), []. rewrite app_nil_r.
      repeat split; [constructor|]. right. now exists (pre' ++ a), x.
    + exists pre', (a ++ [x]). rewrite app_assoc. repeat split; [|exact Hp].
      apply Forall_app. split; [exact Ha | now repeat constructor].
Qed.

Lemma run_after (post : str) :
  exists b post', post = b ++ post' /\ no_space b /\ space_after post'.
Proof.
  induction post as [|c post (b & post' & -> & Hb & Hp)].
  - exists [], []. repeat split. constructor.
  - destruct (Unicode.isspace c) eqn:E.
    + exists [], (c :: b ++ post'). repeat split; [constructor | exact E].
    + exists (c :: b), post'. repeat split; [|exact Hp]. now constructor.
Qed.

(** An occurrence of a text without white space lies inside one word. *)
Lemma word_around (s pre w post : str) :
  s = pre ++ w ++ post -> w <> [] -> no_space w ->
  exists a b pre' post',
    pre = pre' ++ a /\ post = b ++ post'
    /\ space_before pre' /\ space_after post'
    /\ In (a ++ w ++ b) (PyStr.split s).
Proof.
  intros -> Hne Hw.
  destruct (run_before pre) as (pre' & a & -> & Ha & Hp).
  destruct (run_after post) as (b & post' & -> & Hb & Hq).
  exists a, b, pre', post'. repeat split; auto.
  assert (Hrun : no_space (a ++ w ++ b)).
  { apply Forall_app. split; [exact Ha|]. apply Forall_app. now split. }
  assert (Hin : forall cur, cur = [] ->
                  In (a ++ w ++ b) (PyStr.split_from cur ((a ++ w ++ b) ++ post'))).
  { intros cur ->. rewrite split_from_run by exact Hrun. cbn [app].
    assert (Hn : a ++ w ++ b <> []).
    { intros E. apply app_eq_nil in E as [_ E]. apply app_eq_nil in E as [E _].
      contradiction. }
    destruct post' as [|c post'].
    - simpl. destruct (a ++ w ++ b); [congruence | now left].
    - simpl in Hq. cbn [PyStr.split_from]. rewrite Hq.
      destruct (a ++ w ++ b); [congruence | now left]. }
  unfold PyStr.split.
  replace ((pre' ++ a) ++ w ++ b ++ post') with (pre' ++ (a ++ w ++ b) ++ post')
    by (now rewrite <- !app_assoc).
  destruct pre' as [|x pre'].
  - apply Hin. reflexivity.
  - destruct (split_from_skip (x :: pre') [] ((a ++ w ++ b) ++ post'))
      as (l & ->); [discriminate | exact Hp|].
    apply in_or_app. right. now apply Hin.
Qed.

(** The leftmost occurrence of the longest word is a whole word. *)
Lemma longest_whole_word (s pre w post : str) :
  first_longest (PyStr.split s) w -> s = pre ++ w ++ post ->
  space_before pre /\ space_after post.
Proof.
  intros Hl Hs.
  pose proof (first_longest_in _ _ Hl) as Hin.
  assert (Hne : w <> []) by (eapply split_from_nonempty; exact Hin).
  assert (Hw : no_space w).
  { eapply (split_from_words s []); [constructor | exact Hin]. }
  destruct (word_around s pre w post Hs Hne Hw)
    as (a & b & pre' & post' & -> & -> & Hp & Hq & Hin').
  assert (Hlen : length (a ++ w ++ b) <= length w).
  { destruct Hl as (l1 & l2 & E & H1 & H2). rewrite E in Hin'.
    apply in_app_or in Hin' as [Hi | [<- | Hi]].
    - rewrite Forall_forall in H1. specialize (H1 _ Hi). lia.
    - lia.
    - rewrite Forall_forall in H2. now apply H2. }
  rewrite !length_app in Hlen.
  assert (a = []) as -> by (destruct a; [reflexivity | simpl in Hlen; lia]).
  assert (b = []) as -> by (destruct b; [reflexivity | simpl in Hlen; lia]).
  rewrite app_nil_r. split; [exact Hp | exact Hq].
Qed.

(** ** The card generator *)

Lemma generate_cloze_spec (sentence : str) :
  (generate_cloze sentence = Ok None /\ ~ cloze_fires sentence)
  \/ (exists w,
        generate_cloze sentence
        = Ok (Some (PyStr.replace_first sentence w
                      (lit "{{c1::" ++ w ++ lit "}}")))
        /\ 10 <= length (PyStr.split sentence)
        /\ first_longest (PyStr.split sentence) w /\ 6 <= length w).
Proof.
  unfold generate_cloze, cloze_fires.
  destruct (length (PyStr.split sentence) <? 10) eqn:E.
  - left. apply Nat.ltb_lt in E. split; [reflexivity | lia].
  - apply Nat.ltb_ge in E.
    destruct (max_by_len_spec (PyStr.split sentence)) as (w & Hw & Hl).
    { intros H0. rewrite H0 in E. simpl in E. lia. }
    rewrite Hw. simpl. destruct (length w <? 6) eqn:E6.
    + left. apply Nat.ltb_lt in E6. split; [reflexivity|].
      intros (_ & w' & Hl' & H6).
      rewrite (first_longest_unique _ _ _ Hl Hl') in E6. lia.
    + right. apply Nat.ltb_ge in E6. exists w. auto.
Qed.

Lemma marker_nonempty (w : str) : lit "{{c1::" ++ w ++ lit "}}" <> [].
Proof. vm_compute. discriminate. Qed.

Lemma replaced_truthy (s w out : str) :
  first_occurrence_replaced s w (lit "{{c1::" ++ w ++ lit "}}") out ->
  PyStr.truthy out = true.
Proof.
  intros (pre & post & _ & -> & _).
  destruct (pre ++ (lit "{{c1::" ++ w ++ lit "}}") ++ post) eqn:E; [|reflexivity].
  apply app_eq_nil in E as [_ E]. apply app_eq_nil in E as [E _].
  now apply marker_nonempty in E.
Qed.

Lemma cloze_replaced (sentence w : str) :
  first_longest (PyStr.split sentence) w ->
  first_occurrence_replaced sentence w (lit "{{c1::" ++ w ++ lit "}}")
    (PyStr.replace_first sentence w (lit "{{c1::" ++ w ++ lit "}}")).
Proof.
  intros Hl. apply first_longest_in in Hl.
  apply replace_first_spec.
  - eapply split_from_nonempty. exact Hl.
  - now apply split_occurs.
Qed.

(** One turn of the loop adds the basic card when the sentence is a
    definition, then the cloze card when the cloze check fires. *)
Lemma cards_step_spec (cards : list card) (sec sentence : str) :
  exists bs cs,
    cards_step cards (sec, sentence) = Ok (cards ++ bs ++ cs)
    /\ (if is_definition sentence then bs = [basic_card sec sentence]
        else bs = [])
    /\ ((cs = [] /\ ~ cloze_fires sentence)
        \/ (exists w, cs = [cloze_card sec sentence w]
                      /\ 10 <= length (PyStr.split sentence)
                      /\ first_longest (PyStr.split sentence) w
                      /\ 6 <= length w)).
Proof.
  exists (if is_definition sentence then [basic_card sec sentence] else []).
  destruct (generate_cloze_spec sentence) as [[Hc Hn] | (w & Hc & H10 & Hl & H6)].
  - exists []. split; [|split].
    + unfold cards_step. rewrite Hc. unfold bind.
      destruct (is_definition sentence); cbn [app generate_basic_card];
        now rewrite ?app_nil_r.
    + destruct (is_definition sentence); reflexivity.
    + left. now split.
  - exists [cloze_card sec sentence w]. split; [|split].
    + unfold cards_step. rewrite Hc. unfold bind.
      rewrite (replaced_truthy _ _ _ (cloze_replaced _ _ Hl)).
      destruct (is_definition sentence).
      * unfold generate_basic_card. rewrite <- app_assoc. reflexivity.
      * reflexivity.
    + destruct (is_definition sentence); reflexivity.
    + right. exists w. auto.
Qed.

Lemma emitted_spec (sec sentence : str) :
  exists bs cs,
    emitted (sec, sentence) = bs ++ cs
    /\ (forall cards, cards_step cards (sec, sentence) = Ok (cards ++ bs ++ cs))
    /\ (if is_definition sentence then bs = [basic_card sec sentence]
        else bs = [])
    /\ ((cs = [] /\ ~ cloze_fires sentence)
        \/ (exists w, cs = [cloze_card sec sentence w]
                      /\ 10 <= length (PyStr.split sentence)
                      /\ first_longest (PyStr.split sentence) w
                      /\ 6 <= length w)).
Proof.
  destruct (cards_step_spec [] sec sentence) as (bs & cs & H0 & Hb & Hc).
  exists bs, cs. split; [|split; [|split]]; auto.
  - unfold emitted, generate_cards, cards_loop. rewrite H0. reflexivity.
  - intros cards.
    destruct (cards_step_spec cards sec sentence) as (bs' & cs' & H1 & Hb' & Hc').
    assert (bs' = bs) as ->.
    { destruct (is_definition sentence); congruence. }
    assert (cs' = cs) as ->.
    { destruct Hc as [[-> Hn] | (w & -> & H10 & Hl & H6)];
        destruct Hc' as [[-> Hn'] | (w' & -> & H10' & Hl' & H6')];
        try reflexivity.
      - exfalso. apply Hn. split; [exact H10' | now exists w'].
      - exfalso. apply Hn'. split; [exact H10 | now exists w].
      - now rewrite (first_longest_unique _ _ _ Hl Hl'). }
    exact H1.
Qed.

Lemma cards_loop_spec (l : list (str * str)) (cards : list card) :
  cards_loop cards l = Ok (cards ++ flat_map emitted l).
Proof.
  revert cards; induction l as [|[sec sentence] l IH]; intros cards;
    cbn [cards_loop flat_map].
  - now rewrite app_nil_r.
  - destruct (emitted_spec sec sentence) as (bs & cs & He & Hs & _).
    rewrite (Hs cards). cbn [bind]. rewrite IH, He, <- app_assoc. reflexivity.
Qed.

Lemma generate_cards_spec (l : list (str * str)) :
  generate_cards l = Ok (flat_map emitted l).
Proof. apply (cards_loop_spec l []). Qed.

Lemma generate_cards_one (item : str * str) :
  generate_cards [item] = Ok (emitted item).
Proof. rewrite generate_cards_spec. cbn [flat_map]. now rewrite app_nil_r. Qed.

Lemma basic_neq_cloze : lit "basic" <> lit "cloze".
Proof. vm_compute. discriminate. Qed.

Lemma is_definition_iff (sentence : str) :
  is_definition sentence = true <-> definition_fires sentence.
Proof.
  unfold is_definition, definition_fires, PyStr.startswith_any.
  rewrite andb_true_iff, Nat.ltb_lt, existsb_exists. split.
  - intros [(p & Hin & Hp) Hlen]. split; [|exact Hlen].
    apply startswith_iff in Hp as [rest Hr]. now exists p, rest.
  - intros [(p & rest & Hin & Hp) Hlen]. split; [|exact Hlen].
    exists p. split; [exact Hin|]. apply startswith_iff. now exists rest.
Qed.

Lemma emitted_cases (sec sentence : str) :
  exists bs cs,
    emitted (sec, sentence) = bs ++ cs
    /\ ((bs = [] /\ ~ definition_fires sentence)
        \/ (bs = [basic_card sec sentence] /\ definition_fires sentence))
    /\ ((cs = [] /\ ~ cloze_fires sentence)
        \/ (exists w, cs = [cloze_card sec sentence w]
                      /\ cloze_fires sentence
                      /\ first_longest (PyStr.split sentence) w)).
Proof.
  destruct (emitted_spec sec sentence) as (bs & cs & He & _ & Hb & Hc).
  exists bs, cs. split; [exact He|]. split.
  - destruct (is_definition sentence) eqn:E.
    + right. split; [exact Hb|]. now apply is_definition_iff.
    + left. split; [exact Hb|]. rewrite <- is_definition_iff. congruence.
  - destruct Hc as [Hc | (w & Hw & H10 & Hl & H6)]; [now left|].
    right. exists w. split; [exact Hw|]. split; [|exact Hl].
    split; [exact H10 | now exists w].
Qed.

(** C1. For every sentence, a cloze card is emitted exactly when the
    sentence has at least 10 words and its longest word, the first one
    among equals, has at least 6 characters; the front of that card is the
    sentence with the leftmost occurrence of that word, a whole word of
    the sentence, wrapped in the cloze marker and nothing else changed;
    its back is empty and its type is cloze. *)
Theorem cloze_card_spec (sec sentence : str) :
  exists cards,
    generate_cards [(sec, sentence)] = Ok cards
    /\ ((exists c, In c cards /\ type c = lit "cloze")
        <-> (10 <= length (PyStr.split sentence)
             /\ exists w, first_longest (PyStr.split sentence) w
                          /\ 6 <= length w))
    /\ (forall c, In c cards -> type c = lit "cloze" ->
          exists w pre post,
            first_longest (PyStr.split sentence) w
            /\ sentence = pre ++ w ++ post
            /\ (forall pre' post',
                  sentence = pre' ++ w ++ post' -> length pre <= length pre')
            /\ space_before pre /\ space_after post
            /\ front c = pre ++ lit "{{c1::" ++ w ++ lit "}}" ++ post
            /\ back c = []).
Proof.
  exists (emitted (sec, sentence)). split; [apply generate_cards_one|].
  destruct (emitted_cases sec sentence) as (bs & cs & -> & Hb & Hc).
  assert (Hbs : forall c, In c bs -> type c = lit "cloze" -> False).
  { intros c Hin Ht. destruct Hb as [[-> _] | [-> _]]; [destruct Hin|].
    destruct Hin as [<- | []]. now apply basic_neq_cloze in Ht. }
  split.
  - split.
    + intros (c & Hin & Ht). apply in_app_or in Hin as [Hin | Hin].
      * exfalso. eapply Hbs; eauto.
      * destruct Hc as [[-> _] | (w & _ & Hf & _)]; [destruct Hin | exact Hf].
    + intros Hf. destruct Hc as [[_ Hn] | (w & -> & _ & _)]; [contradiction|].
      exists (cloze_card sec sentence w). split; [|reflexivity].
      apply in_or_app. right. now left.
  - intros c Hin Ht. apply in_app_or in Hin as [Hin | Hin].
    + exfalso. eapply Hbs; eauto.
    + destruct Hc as [[-> _] | (w & -> & _ & Hl)]; [destruct Hin|].
      destruct Hin as [<- | []].
      destruct (cloze_replaced sentence w Hl) as (pre & post & Hs & Hout & Hmin).
      destruct (longest_whole_word sentence pre w post Hl Hs) as [Hp Hq].
      exists w, pre, post. split; [exact Hl|]. split; [exact Hs|].
      split; [exact Hmin|]. split; [exact Hp|]. split; [exact Hq|]. split.
      * cbn [front cloze_card]. rewrite Hout, <- !app_assoc. reflexivity.
      * reflexivity.
Qed.

(** An instance of [cloze_card_spec]. *)
Lemma cloze_card_spec_witness :
  exists c w pre post,
    type c = lit "cloze"
    /\ first_longest (PyStr.split sample_sentence) w
    /\ sample_sentence = pre ++ w ++ post
    /\ front c = pre ++ lit "{{c1::" ++ w ++ lit "}}" ++ post
    /\ back c = [].
Proof.
  destruct (cloze_card_spec (lit "General") sample_sentence)
    as (cards & Hg & _ & Hall).
  assert (Hin : In (cloze_card (lit "General") sample_sentence
                      (lit "converteixen")) cards).
  { rewrite generate_cards_one in Hg. injection Hg as <-.
    vm_compute. right. left. reflexivity. }
  destruct (Hall _ Hin eq_refl) as (w & pre & post & Hw & Hs & _ & _ & _ & Hf & Hb).
  exists (cloze_card (lit "General") sample_sentence (lit "converteixen")),
    w, pre, post.
  split; [reflexivity|]. split; [exact Hw|]. split; [exact Hs|].
  split; [exact Hf | exact Hb].
Defined.

(** C2. For every sentence, a basic card is emitted exactly when the
    sentence starts with one of the seven prefixes and has more than 8
    words; its front is the text Defineix followed by the first 5 words
    joined by single spaces and three periods, its back is the sentence
    itself and its type is basic. *)
Theorem basic_card_spec (sec sentence : str) :
  exists cards,
    generate_cards [(sec, sentence)] = Ok cards
    /\ ((exists c, In c cards /\ type c = lit "basic")
        <-> ((exists p rest,
                 In p [ lit "Es denomina"; lit "És"; lit "Es produeix";
                        lit "La"; lit "El"; lit "Els"; lit "Les" ]
                 /\ sentence = p ++ rest)
             /\ 8 < length (PyStr.split sentence)))
    /\ (forall c, In c cards -> type c = lit "basic" ->
          front c = lit "Defineix: "
                    ++ PyStr.join (lit " ") (firstn 5 (PyStr.split sentence))
                    ++ lit "..."
          /\ back c = sentence).
Proof.
  exists (emitted (sec, sentence)). split; [apply generate_cards_one|].
  destruct (emitted_cases sec sentence) as (bs & cs & -> & Hb & Hc).
  assert (Hcs : forall c, In c cs -> type c = lit "basic" -> False).
  { intros c Hin Ht. destruct Hc as [[-> _] | (w & -> & _)]; [destruct Hin|].
    destruct Hin as [<- | []]. symmetry in Ht. now apply basic_neq_cloze in Ht. }
  split.
  - split.
    + intros (c & Hin & Ht). apply in_app_or in Hin as [Hin | Hin].
      * destruct Hb as [[-> _] | [_ Hf]]; [destruct Hin | exact Hf].
      * exfalso. eapply Hcs; eauto.
    + intros Hf. destruct Hb as [[_ Hn] | [-> _]]; [contradiction|].
      exists (basic_card sec sentence). split; [|reflexivity].
      apply in_or_app. left. now left.
  - intros c Hin Ht. apply in_app_or in Hin as [Hin | Hin].
    + destruct Hb as [[-> _] | [-> _]]; [destruct Hin|].
      destruct Hin as [<- | []]. split; reflexivity.
    + exfalso. eapply Hcs; eauto.
Qed.

(** An instance of [basic_card_spec]. *)
Lemma basic_card_spec_witness :
  exists c,
    type c = lit "basic"
    /\ front c = lit "Defineix: La fotosíntesi és el procés..."
    /\ back c = sample_sentence.
Proof.
  destruct (basic_card_spec (lit "General") sample_sentence)
    as (cards & Hg & _ & Hall).
  assert (Hin : In (basic_card (lit "General") sample_sentence) cards).
  { rewrite generate_cards_one in Hg. injection Hg as <-.
    vm_compute. left. reflexivity. }
  destruct (Hall _ Hin eq_refl) as (Hf & Hb).
  exists (basic_card (lit "General") sample_sentence).
  split; [reflexivity|]. split; [exact Hf | exact Hb].
Defined.

(** C8. Every card produced by the card generator has approved equal to
    no, a type that is basic or cloze, and the section label of the pair
    it was made from. *)
Theorem cards_invariant (sectioned_text : list (str * str)) :
  exists cards,
    generate_cards sectioned_text = Ok cards
    /\ Forall (fun c =>
                 approved c = lit "no"
                 /\ (type c = lit "basic" \/ type c = lit "cloze")
                 /\ exists sentence part,
                      In (section c, sentence) sectioned_text
                      /\ generate_cards [(section c, sentence)] = Ok part
                      /\ In c part)
              cards.
Proof.
  exists (flat_map emitted sectioned_text). split; [apply generate_cards_spec|].
  apply Forall_forall. intros c Hin.
  apply in_flat_map in Hin as ([sec sentence] & Hitem & Hc).
  assert (H : approved c = lit "no"
              /\ (type c = lit "basic" \/ type c = lit "cloze")
              /\ section c = sec).
  { destruct (emitted_cases sec sentence) as (bs & cs & E & Hb & Hcl).
    rewrite E in Hc. apply in_app_or in Hc as [Hc | Hc].
    - destruct Hb as [[-> _] | [-> _]]; [destruct Hc|].
      destruct Hc as [<- | []]. repeat split. now left.
    - destruct Hcl as [[-> _] | (w & -> & _)]; [destruct Hc|].
      destruct Hc as [<- | []]. repeat split. now right. }
  destruct H as (Ha & Ht & Hs). split; [exact Ha|]. split; [exact Ht|].
  exists sentence, (emitted (sec, sentence)). rewrite Hs.
  split; [exact Hitem|]. split; [apply generate_cards_one | exact Hc].
Qed.

(** C9. The output is the concatenation, in the order of the pairs, of
    what each pair contributes; a pair contributes at most two cards, and
    when both checks fire it contributes the basic card immediately
    followed by the cloze card. *)
Theorem cards_order (sectioned_text : list (str * str)) :
  exists parts,
    generate_cards sectioned_text = Ok (concat parts)
    /\ Forall2 (fun item part =>
                  generate_cards [item] = Ok part
                  /\ length part <= 2
                  /\ (is_definition (snd item) = true ->
                      (exists text, generate_cloze (snd item) = Ok (Some text)) ->
                      exists b c, part = [b; c]
                                  /\ type b = lit "basic"
                                  /\ type c = lit "cloze"))
               sectioned_text parts.
Proof.
  exists (map emitted sectioned_text). split.
  - rewrite generate_cards_spec. now rewrite flat_map_concat_map.
  - induction sectioned_text as [|[sec sentence] l IH]; constructor; [|exact IH].
    split; [apply generate_cards_one|].
    destruct (emitted_cases sec sentence) as (bs & cs & -> & Hb & Hc).
    split.
    + rewrite length_app.
      assert (length bs <= 1) by (destruct Hb as [[-> _] | [-> _]]; simpl; lia).
      assert (length cs <= 1) by (destruct Hc as [[-> _] | (w & -> & _)]; simpl; lia).
      lia.
    + cbn [snd]. intros Hd [text Ht].
      apply is_definition_iff in Hd.
      destruct Hb as [[_ Hn] | [-> _]]; [contradiction|].
      destruct Hc as [[_ Hn] | (w & -> & _)].
      * exfalso. destruct (generate_cloze_spec sentence) as [[E _] | (w & _ & H10 & Hl & H6)].
        -- congruence.
        -- apply Hn. split; [exact H10 | now exists w].
      * exists (basic_card sec sentence), (cloze_card sec sentence w).
        repeat split.
Qed.

(** An instance of [cards_order]. *)
Lemma cards_order_witness :
  exists b c,
    generate_cards [(lit "General", sample_sentence)] = Ok [b; c]
    /\ type b = lit "basic" /\ type c = lit "cloze".
Proof.
  destruct (cards_order [(lit "General", sample_sentence)])
    as (parts & Hg & Hparts).
  inversion Hparts as [|item part l l' (Hone & _ & Hboth) Hrest]; subst.
  destruct Hboth as (b & c & -> & Hb & Hc).
  - vm_compute. reflexivity.
  - eexists. vm_compute. reflexivity.
  - exists b, c. split; [exact Hone|]. split; [exact Hb | exact Hc].
Defined.

(** ** The sectioner *)

Lemma detect_fold (paragraphs : list str) (cur : str) (acc : list (str * str)) :
  snd (fold_left detect_step paragraphs (cur, acc)) = acc ++ tagged cur paragraphs.
Proof.
  revert cur acc; induction paragraphs as [|p ps IH]; intros cur acc.
  - simpl. now rewrite app_nil_r.
  - cbn [fold_left tagged]. unfold detect_step at 2, heading_label.
    destruct (Re.match_ SECTION_REGEX p) as [m|].
    + apply IH.
    + rewrite IH, <- app_assoc. reflexivity.
Qed.

Lemma detect_sections_tagged (paragraphs : list str) :
  detect_sections paragraphs = tagged (lit "General") paragraphs.
Proof. unfold detect_sections. now rewrite detect_fold. Qed.

Lemma heading_label_none (p : str) :
  is_heading p = false <-> heading_label p = None.
Proof.
  unfold is_heading, heading_label.
  destruct (Re.match_ SECTION_REGEX p); split; congruence.
Qed.

Lemma heading_label_some (p : str) :
  is_heading p = true <-> exists label, heading_label p = Some label.
Proof.
  unfold is_heading, heading_label.
  destruct (Re.match_ SECTION_REGEX p); split; try congruence.
  - intros _. eexists. reflexivity.
  - intros [l Hl]. discriminate.
Qed.

Lemma tagged_sentences (cur : str) (paragraphs : list str) :
  map snd (tagged cur paragraphs) = filter sentence_of paragraphs.
Proof.
  revert cur; induction paragraphs as [|p ps IH]; intros cur; [reflexivity|].
  cbn [tagged filter]. unfold sentence_of at 1.
  destruct (heading_label p) as [label|] eqn:E.
  - assert (is_heading p = true) as -> by (apply heading_label_some; eauto).
    apply IH.
  - apply heading_label_none in E. rewrite E. simpl. now rewrite IH.
Qed.

(** The tags of a run of sentences that follows the state [cur]. *)
Lemma tagged_run (cur : str) (post more : list str) :
  Forall (fun q => is_heading q = false) post ->
  tagged cur (post ++ more) = map (pair cur) post ++ tagged cur more.
Proof.
  induction 1 as [|q post Hq _ IH]; [reflexivity|].
  cbn [app tagged map]. apply heading_label_none in Hq. rewrite Hq.
  now rewrite IH.
Qed.

Lemma tagged_app (cur : str) (pre rest : list str) :
  exists cur', tagged cur (pre ++ rest) = tagged cur pre ++ tagged cur' rest
    /\ ((Forall (fun q => is_heading q = false) pre /\ cur' = cur)
        \/ exists a h b, pre = a ++ h :: b /\ heading_label h = Some cur'
                         /\ Forall (fun q => is_heading q = false) b).
Proof.
  revert cur; induction pre as [|q pre IH]; intros cur.
  - exists cur. split; [reflexivity|]. left. split; [constructor | reflexivity].
  - cbn [app tagged]. destruct (heading_label q) as [label|] eqn:E.
    + destruct (IH label) as (cur' & Ht & Hc). exists cur'. split; [exact Ht|].
      right. destruct Hc as [[Hf ->] | (a & h & b & -> & Hh & Hb)].
      * now exists [], q, pre.
      * now exists (q :: a), h, b.
    + destruct (IH cur) as (cur' & Ht & Hc). exists cur'. split.
      * rewrite Ht. reflexivity.
      * destruct Hc as [[Hf ->] | (a & h & b & -> & Hh & Hb)].
        -- left. split; [|reflexivity]. constructor; [|exact Hf].
           now apply heading_label_none.
        -- right. now exists (q :: a), h, b.
Qed.

(** C3. The sectioner returns exactly the paragraphs that are not
    headings, each once and in their order; each is tagged with the label
    set by the last heading before it, or with General when no heading
    comes before it; no sentence of the result is a heading. *)
Theorem detect_sections_spec (paragraphs : list str) :
  map snd (detect_sections paragraphs) = filter sentence_of paragraphs
  /\ Forall (fun pair => is_heading (snd pair) = false) (detect_sections paragraphs)
  /\ (forall pre p post,
        paragraphs = pre ++ p :: post -> is_heading p = false ->
        exists label,
          nth_error (detect_sections paragraphs) (length (filter sentence_of pre))
          = Some (label, p)
          /\ ((Forall (fun q => is_heading q = false) pre /\ label = lit "General")
              \/ exists a h b,
                   pre = a ++ h :: b /\ heading_label h = Some label
                   /\ Forall (fun q => is_heading q = false) b)).
Proof.
  rewrite detect_sections_tagged.
  pose proof (tagged_sentences (lit "General") paragraphs) as Hs.
  split; [exact Hs|]. split.
  - apply Forall_forall. intros [l s] Hin.
    assert (In s (filter sentence_of paragraphs)) as Hf.
    { rewrite <- Hs. apply (in_map snd) in Hin. exact Hin. }
    apply filter_In in Hf as [_ Hf]. unfold sentence_of in Hf.
    simpl. now destruct (is_heading s).
  - intros pre p post -> Hp.
    destruct (tagged_app (lit "General") pre (p :: post)) as (label & Ht & Hc).
    exists label. split; [|exact Hc].
    rewrite Ht, nth_error_app2.
    + rewrite <- (tagged_sentences (lit "General") pre), length_map.
      rewrite Nat.sub_diag. cbn [tagged].
      apply heading_label_none in Hp. rewrite Hp. reflexivity.
    + rewrite <- (tagged_sentences (lit "General") pre), length_map. lia.
Qed.

(** An instance of [detect_sections_spec]. *)
Lemma detect_sections_spec_witness :
  exists label,
    nth_error (detect_sections sample_paragraphs) 1
    = Some (label, lit "Els enzims són proteïnes.")
    /\ ((Forall (fun q => is_heading q = false)
                [lit "Apunts de biologia"; lit "3.1. Enzims"]
         /\ label = lit "General")
        \/ exists a h b,
             [lit "Apunts de biologia"; lit "3.1. Enzims"] = a ++ h :: b
             /\ heading_label h = Some label
             /\ Forall (fun q => is_heading q = false) b).
Proof.
  apply (proj2 (proj2 (detect_sections_spec sample_paragraphs))
           [lit "Apunts de biologia"; lit "3.1. Enzims"]
           (lit "Els enzims són proteïnes.") []).
  - reflexivity.
  - vm_compute. reflexivity.
Defined.

(** ** The matcher *)

(** The backtracking search finds a match whenever there is one. *)
Lemma run_complete_gen (r : Re.regex) (s s' : str) :
  matches r s s' ->
  (forall g k, (forall g', k s' g' <> None) -> Re.run r s g k <> None)
  /\ match r with
     | Re.Star r0 =>
         forall n g k, length s < n -> (forall g', k s' g' <> None) ->
                       Re.star_loop (Re.run r0) n s g k <> None
     | _ => True
     end.
Proof.
  induction 1 as [p c s Hp | r1 r2 s s1 s2 _ [IH1 _] _ [IH2 _] | r s
                 | r s s1 s2 _ [IH1 _] Hlen _ [_ IH2] | i r s s' _ [IH _]].
  - split; [|exact I]. intros g k Hk. simpl. rewrite Hp. apply Hk.
  - split; [|exact I]. intros g k Hk. simpl. apply IH1. intros g'. now apply IH2.
  - assert (Hs : forall n g k, (forall g', k s g' <> None) ->
                               Re.star_loop (Re.run r) n s g k <> None).
    { intros n g k Hk. destruct n; simpl; [apply Hk|].
      destruct (Re.run r s g _); [discriminate | apply Hk]. }
    split.
    + intros g k Hk. simpl. now apply (Hs (S (length s))).
    + intros n g k _ Hk. now apply Hs.
  - assert (Hs : forall n g k, length s < n -> (forall g', k s2 g' <> None) ->
                               Re.star_loop (Re.run r) n s g k <> None).
    { intros n g k Hn Hk. destruct n as [|n]; [lia|]. simpl.
      destruct (Re.run r s g _) eqn:E; [discriminate|]. exfalso.
      revert E. apply IH1. intros g'.
      apply Nat.ltb_lt in Hlen. rewrite Hlen. apply Nat.ltb_lt in Hlen.
      apply IH2; [lia | exact Hk]. }
    split.
    + intros g k Hk. simpl. apply (Hs (S (length s))); [lia | exact Hk].
    + exact Hs.
  - split; [|exact I]. intros g k Hk. simpl. apply IH. intros g'. apply Hk.
Qed.

Lemma match_complete (r : Re.regex) (s s' : str) :
  matches r s s' -> Re.match_ r s <> None.
Proof.
  intros H. unfold Re.match_. apply (proj1 (run_complete_gen r s s' H)).
  discriminate.
Qed.

Lemma matches_star_class (p : char -> bool) (ds rest : str) :
  Forall (fun c => p c = true) ds ->
  matches (Re.Star (Re.Class p)) (ds ++ rest) rest.
Proof.
  induction 1 as [|d ds Hd _ IH]; [apply M_star_stop|].
  apply (M_star_more _ ((d :: ds) ++ rest) (ds ++ rest) rest);
    [apply M_class, Hd | simpl; lia | exact IH].
Qed.

Lemma matches_plus_class (p : char -> bool) (ds rest : str) :
  ds <> [] -> Forall (fun c => p c = true) ds ->
  matches (Re.Plus (Re.Class p)) (ds ++ rest) rest.
Proof.
  intros Hne Hds. destruct ds as [|d ds]; [congruence|].
  inversion Hds; subst.
  eapply M_cat; [now apply M_class | now apply matches_star_class].
Qed.

(** *** The greedy path *)

Lemma star_loop_S (body : str -> Re.groups -> Re.cont -> option Re.groups)
    (n : nat) (s : str) (g : Re.groups) (k : Re.cont) :
  Re.star_loop body (S n) s g k
  = match body s g (fun s' g' => if length s' <? length s
                                 then Re.star_loop body n s' g' k else None) with
    | Some r => Some r
    | None => k s g
    end.
Proof. reflexivity. Qed.

Lemma run_class (p : char -> bool) (c : char) (s : str) (g : Re.groups)
    (k : Re.cont) :
  Re.run (Re.Class p) (c :: s) g k = if p c then k s g else None.
Proof. reflexivity. Qed.

Lemma run_cat (r1 r2 : Re.regex) (s : str) (g : Re.groups) (k : Re.cont) :
  Re.run (Re.Cat r1 r2) s g k
  = Re.run r1 s g (fun s' g' => Re.run r2 s' g' k).
Proof. reflexivity. Qed.

Lemma run_star (r : Re.regex) (s : str) (g : Re.groups) (k : Re.cont) :
  Re.run (Re.Star r) s g k = Re.star_loop (Re.run r) (S (length s)) s g k.
Proof. reflexivity. Qed.

Lemma run_group (i : nat) (r : Re.regex) (s : str) (g : Re.groups)
    (k : Re.cont) :
  Re.run (Re.Group i r) s g k
  = Re.run r s g (fun s' g' =>
                    k s' ((i, firstn (length s - length s') s) :: g')).
Proof. reflexivity. Qed.

Lemma star_class_greedy (p : char -> bool) (Q : Re.groups -> Prop)
    (ds rest : str) (n : nat) (g : Re.groups) (k : Re.cont) :
  Forall (fun c => p c = true) ds -> not_at p rest -> length ds <= n ->
  succeeds Q (k rest g) ->
  succeeds Q (Re.star_loop (Re.run (Re.Class p)) n (ds ++ rest) g k).
Proof.
  intros Hds Hrest. revert n. induction Hds as [|d ds Hd _ IH]; intros n Hn Hk.
  - destruct n; [exact Hk|]. rewrite star_loop_S. simpl app.
    destruct rest as [|x rest]; [exact Hk|].
    rewrite run_class. simpl in Hrest. rewrite Hrest. exact Hk.
  - destruct n as [|n]; [simpl in Hn; lia|].
    rewrite star_loop_S. simpl app. rewrite run_class, Hd.
    shorter.
    destruct (IH n) as (res & -> & Hq); [simpl in Hn; lia | exact Hk|].
    now exists res.
Qed.

Lemma plus_class_greedy (p : char -> bool) (Q : Re.groups -> Prop)
    (ds rest : str) (g : Re.groups) (k : Re.cont) :
  ds <> [] -> Forall (fun c => p c = true) ds -> not_at p rest ->
  succeeds Q (k rest g) ->
  succeeds Q (Re.run (Re.Plus (Re.Class p)) (ds ++ rest) g k).
Proof.
  intros Hne Hds Hrest Hk. destruct ds as [|d ds]; [congruence|].
  inversion Hds as [|? ? Hd Hds']; subst.
  unfold Re.Plus. rewrite run_cat. simpl app. rewrite run_class, Hd, run_star.
  apply star_class_greedy; auto. rewrite length_app. lia.
Qed.

Lemma succeeds_match (Q : Re.groups -> Prop) (x y : option Re.groups) :
  succeeds Q x ->
  succeeds Q (match x with Some r => Some r | None => y end).
Proof. intros (res & -> & Hq). now exists res. Qed.

Lemma join_dotted (d0 : str) (ints : list str) :
  PyStr.join (lit ".") (d0 :: ints) = d0 ++ dotted_groups ints.
Proof.
  revert d0; induction ints as [|d ints IH]; intros d0.
  - simpl. now rewrite app_nil_r.
  - change (PyStr.join (lit ".") (d0 :: d :: ints))
      with (d0 ++ lit "." ++ PyStr.join (lit ".") (d :: ints)).
    rewrite IH. reflexivity.
Qed.

Lemma dotted_groups_length (ints : list str) :
  length ints <= length (dotted_groups ints).
Proof.
  unfold dotted_groups. induction ints as [|d ints IH]; simpl; [lia|].
  rewrite length_app. apply le_n_S.
  eapply Nat.le_trans; [exact IH | apply Nat.le_add_l].
Qed.

Lemma not_at_dotted (ints : list str) (tail : str) :
  not_at Unicode.isdecimal (dotted_groups ints ++ 46%Z :: tail).
Proof. destruct ints; reflexivity. Qed.

Lemma firstn_consumed (a s' s : str) :
  s = a ++ s' -> firstn (length s - length s') s = a.
Proof.
  intros ->. rewrite length_app, Nat.add_sub.
  rewrite firstn_app, Nat.sub_diag, firstn_all. simpl. now rewrite app_nil_r.
Qed.

Lemma plus_class_all (p : char -> bool) (Q : Re.groups -> Prop)
    (ds : str) (g : Re.groups) (k : Re.cont) :
  ds <> [] -> Forall (fun c => p c = true) ds ->
  succeeds Q (k [] g) ->
  succeeds Q (Re.run (Re.Plus (Re.Class p)) ds g k).
Proof.
  intros Hne Hds Hk. rewrite <- (app_nil_r ds).
  apply plus_class_greedy; auto. exact I.
Qed.

Lemma space_points (c : char) :
  Unicode.isspace c = true ->
  In c [9; 10; 11; 12; 13; 28; 29; 30; 31; 32; 0x85; 0xA0; 0x1680;
        0x2000; 0x2001; 0x2002; 0x2003; 0x2004; 0x2005; 0x2006; 0x2007;
        0x2008; 0x2009; 0x200A; 0x2028; 0x2029; 0x202F; 0x205F; 0x3000]%Z.
Proof.
  unfold Unicode.isspace, Unicode.in_ranges, Unicode.whitespace.
  cbn [existsb fst snd In].
  rewrite !orb_true_iff, !andb_true_iff, !Z.leb_le. lia.
Qed.

Lemma space_not_decimal (c : char) :
  Unicode.isspace c = true -> Unicode.isdecimal c = false.
Proof.
  intros H. apply space_points in H.
  repeat (destruct H as [<- | H]; [reflexivity|]). destruct H.
Qed.

(** *** Backtracking *)

Lemma star_class_none (p : char -> bool) (ds rest : str) (n : nat)
    (g : Re.groups) (k : Re.cont) :
  Forall (fun c => p c = true) ds -> not_at p rest ->
  (forall a b, ds = a ++ b -> k (b ++ rest) g = None) ->
  Re.star_loop (Re.run (Re.Class p)) n (ds ++ rest) g k = None.
Proof.
  intros Hds Hrest. revert n. induction Hds as [|d ds Hd _ IH]; intros n Hk.
  - pose proof (Hk [] [] eq_refl) as H0. simpl in H0.
    destruct n; [exact H0|]. rewrite star_loop_S. simpl app.
    destruct rest as [|x rest]; [exact H0|].
    rewrite run_class. simpl in Hrest. now rewrite Hrest.
  - pose proof (Hk [] (d :: ds) eq_refl) as H0. simpl in H0.
    destruct n as [|n]; [exact H0|].
    rewrite star_loop_S. simpl app. rewrite run_class, Hd.
    destruct (length (ds ++ rest) <? length (d :: ds ++ rest)).
    + rewrite IH; [exact H0|]. intros a b E. apply (Hk (d :: a) b).
      now rewrite E.
    + exact H0.
Qed.

Lemma plus_class_none (p : char -> bool) (ds rest : str)
    (g : Re.groups) (k : Re.cont) :
  Forall (fun c => p c = true) ds -> not_at p rest ->
  (forall a b, ds = a ++ b -> a <> [] -> k (b ++ rest) g = None) ->
  Re.run (Re.Plus (Re.Class p)) (ds ++ rest) g k = None.
Proof.
  intros Hds Hrest Hk. unfold Re.Plus. rewrite run_cat.
  destruct Hds as [|d ds Hd Hds].
  - simpl app. destruct rest as [|x rest]; [reflexivity|].
    rewrite run_class. simpl in Hrest. now rewrite Hrest.
  - simpl app. rewrite run_class, Hd, run_star.
    apply star_class_none; auto.
    intros a b E. apply (Hk (d :: a) b); [now rewrite E | discriminate].
Qed.

Lemma G2_stuck (s : str) (g : Re.groups) (k : Re.cont) :
  stuck s -> Re.run G2 s g k = None.
Proof.
  intros [-> | [-> | (c & s' & -> & Hc)]]; unfold G2;
    rewrite run_group, run_cat; unfold Re.period at 1.
  - reflexivity.
  - reflexivity.
  - rewrite run_class. apply not_eq_sym, Z.eqb_neq in Hc. now rewrite Hc.
Qed.

Lemma LABEL_stuck (s : str) (g : Re.groups) (k : Re.cont) :
  stuck s -> Re.run LABEL s g k = None.
Proof.
  intros [-> | [-> | (c & s' & -> & Hc)]]; unfold LABEL;
    rewrite run_cat; unfold Re.period at 1.
  - reflexivity.
  - reflexivity.
  - rewrite run_class. apply not_eq_sym, Z.eqb_neq in Hc. now rewrite Hc.
Qed.

Lemma star_G2_stuck (s : str) (n : nat) (g : Re.groups) (k : Re.cont) :
  stuck s -> k s g = None -> Re.star_loop (Re.run G2) n s g k = None.
Proof.
  intros Hs Hk. destruct n; [exact Hk|].
  rewrite star_loop_S, (G2_stuck _ _ _ Hs). exact Hk.
Qed.

Lemma G2_no_digit (tail : str) (g : Re.groups) (k : Re.cont) :
  not_at Unicode.isdecimal tail -> Re.run G2 (46%Z :: tail) g k = None.
Proof.
  intros Ht. unfold G2. rewrite run_group, run_cat. unfold Re.period at 1.
  rewrite run_class. cbn [Z.eqb Pos.eqb].
  unfold Re.Plus, Re.digit. rewrite run_cat.
  destruct tail as [|x tail]; [reflexivity|].
  rewrite run_class. simpl in Ht. now rewrite Ht.
Qed.

Lemma decimal_not_period (c : char) : Unicode.isdecimal c = true -> c <> 46%Z.
Proof. intros H ->. discriminate. Qed.

(** The groups are taken greedily; [rest] is where one more group is tried
    and found not to lead to a match. *)
Lemma group2_star_longest (Q : Re.groups -> Prop) (ints : list str)
    (tail : str) (n : nat) (g : Re.groups) (k : Re.cont) :
  Forall is_integer ints -> length ints <= n ->
  (forall m g',
      Re.run G2 (46%Z :: tail) g'
        (fun s' g'' => if length s' <? length (46%Z :: tail)
                       then Re.star_loop (Re.run G2) m s' g'' k else None)
      = None) ->
  (forall g', succeeds Q (k (46%Z :: tail) g')) ->
  succeeds Q (Re.star_loop (Re.run G2) n (dotted_groups ints ++ 46%Z :: tail) g k).
Proof.
  intros Hints. revert n g.
  induction Hints as [|d ints [Hne Hd] _ IH]; intros n g Hn Hfail Hk.
  - simpl app. destruct n; [apply Hk|]. rewrite star_loop_S, Hfail. apply Hk.
  - destruct n as [|n]; [simpl in Hn; lia|]. rewrite star_loop_S.
    apply succeeds_match. unfold G2 at 1. rewrite run_group, run_cat.
    cbn [dotted_groups flat_map app]. fold (dotted_groups ints).
    unfold Re.period at 1. rewrite run_class. cbn [Z.eqb Pos.eqb].
    rewrite <- app_assoc.
    apply plus_class_greedy; [exact Hne | exact Hd | apply not_at_dotted|].
    shorter.
    apply IH; [simpl in Hn; lia | exact Hfail | exact Hk].
Qed.

Lemma digit_prefix (s : str) :
  exists ds tail, s = ds ++ tail
    /\ Forall (fun c => Unicode.isdecimal c = true) ds
    /\ not_at Unicode.isdecimal tail.
Proof.
  induction s as [|c s (ds & tail & -> & Hds & Ht)].
  - exists [], []. repeat split. constructor.
  - destruct (Unicode.isdecimal c) eqn:E.
    + exists (c :: ds), tail. repeat split; auto.
    + exists [], (c :: ds ++ tail). repeat split; auto.
Qed.

(** One more group after the dotted number leads nowhere when the label
    does not start with an integer, a period and more text. *)
Lemma no_longer_number (label : str) (m : nat) (g : Re.groups)
    (k0 : Re.cont) (pre : str -> Re.groups -> Re.groups) :
  (forall d rest, is_integer d -> rest <> [] -> label <> d ++ 46%Z :: rest) ->
  Re.run G2 (46%Z :: label) g
    (fun s' g'' => if length s' <? length (46%Z :: label)
                   then Re.star_loop (Re.run G2) m s' g''
                          (fun s1 g1 => Re.run LABEL s1 (pre s1 g1) k0)
                   else None)
  = None.
Proof.
  intros Hmax. destruct (digit_prefix label) as (ds & tail & -> & Hds & Ht).
  unfold G2 at 1. rewrite run_group, run_cat. unfold Re.period at 1.
  rewrite run_class. cbn [Z.eqb Pos.eqb].
  apply plus_class_none; [exact Hds | exact Ht|].
  intros a b E Ha.
  assert (Hs : stuck (b ++ tail)).
  { destruct b as [|c b].
    - simpl. destruct tail as [|t tail]; [now left|].
      destruct (Z.eq_dec t 46) as [->|Hn].
      + destruct tail as [|t2 tail]; [right; now left|].
        exfalso. apply (Hmax ds (t2 :: tail)); [|discriminate|reflexivity].
        split; [|exact Hds]. subst ds. rewrite app_nil_r. exact Ha.
      + right. right. now exists t, tail.
    - right. right. exists c, (b ++ tail). split; [reflexivity|].
      apply decimal_not_period. subst ds.
      apply Forall_app in Hds as [_ Hb]. now inversion Hb. }
  destruct (length (b ++ tail) <? length (46%Z :: ds ++ tail)); [|reflexivity].
  apply star_G2_stuck; [exact Hs|]. now apply LABEL_stuck.
Qed.

(** The search on a dotted number, a period, white space and a label on
    one line, the dotted number being the longest one that a period and
    more text follow: group 1 is the dotted number, group 3 the label. *)
Lemma section_regex_longest (d0 : str) (ints : list str) (ws label : str) :
  is_integer d0 -> Forall is_integer ints ->
  Forall (fun c => Unicode.isspace c = true) ws ->
  label <> [] -> Forall (fun c => c <> Unicode.LF) label ->
  not_at Unicode.isspace label ->
  (ws = [] ->
   forall d rest, is_integer d -> rest <> [] -> label <> d ++ 46%Z :: rest) ->
  succeeds (fun m => Re.group m 1 = Some (d0 ++ dotted_groups ints)
                     /\ Re.group m 3 = Some label)
    (Re.match_ SECTION_REGEX (d0 ++ dotted_groups ints ++ 46%Z :: ws ++ label)).
Proof.
  intros [Hne0 Hd0] Hints Hws Hne Hlabel Hsp Hmax.
  unfold Re.match_, SECTION_REGEX. fold LABEL.
  rewrite run_cat, run_group, run_cat.
  apply plus_class_greedy; [exact Hne0 | exact Hd0 | apply not_at_dotted|].
  rewrite run_star.
  apply group2_star_longest; [exact Hints | | |].
  { rewrite length_app. pose proof (dotted_groups_length ints). lia. }
  { intros m g'. destruct ws as [|w ws].
    - apply (no_longer_number label m g' (fun _ g => Some g)
               (fun s1 g1 =>
                  (1, firstn (length (d0 ++ dotted_groups ints ++ 46%Z :: label)
                              - length s1)
                             (d0 ++ dotted_groups ints ++ 46%Z :: label)) :: g1)).
      now apply Hmax.
    - inversion Hws; subst. apply G2_no_digit. simpl.
      now apply space_not_decimal. }
  intros g'. unfold LABEL. rewrite run_cat. unfold Re.period at 1.
  rewrite run_class. cbn [Z.eqb Pos.eqb]. rewrite run_cat, run_star.
  apply star_class_greedy; [exact Hws | exact Hsp | rewrite length_app; lia|].
  rewrite run_group. apply plus_class_all; [exact Hne | |].
  { eapply Forall_impl; [|exact Hlabel]. simpl. intros c Hc.
    apply negb_true_iff, Z.eqb_neq. exact Hc. }
  eexists. split; [reflexivity|]. split.
  - cbn [Re.group Nat.eqb]. f_equal. apply firstn_consumed.
    now rewrite <- app_assoc.
  - cbn [Re.group Nat.eqb]. f_equal. simpl length. rewrite Nat.sub_0_r.
    apply firstn_all.
Qed.

(** What a heading does to the result: it adds no pair, and the sentences
    that follow it, up to the next heading, carry its label. *)
Lemma heading_effect (p label : str) (pre post more : list str) :
  heading_label p = Some label ->
  Forall (fun q => is_heading q = false) post ->
  exists tail,
    detect_sections (pre ++ p :: post ++ more)
    = detect_sections pre ++ map (pair label) post ++ tail.
Proof.
  intros Hp Hpost. rewrite !detect_sections_tagged.
  destruct (tagged_app (lit "General") pre (p :: post ++ more)) as (cur' & -> & _).
  cbn [tagged]. rewrite Hp, (tagged_run label post more Hpost).
  now exists (tagged label more).
Qed.

(** C4. A paragraph made of dot-separated integers, a period, optional
    white space and a label on one line is a heading: it adds no pair and
    sets the section to the dotted number, one space and the label, the
    period dropped; the heading 3.1. Enzims gives the label 3.1 Enzims to
    the sentences that follow it up to the next heading. The label is the
    text after the period and the white space, and the dotted number is
    the longest one: a label that directly follows the period does not
    itself start with an integer, a period and more text. *)
Theorem heading_sets_section :
  (forall (ints : list str) (ws label : str) (pre post more : list str),
      ints <> [] -> Forall is_integer ints ->
      Forall (fun c => Unicode.isspace c = true) ws ->
      label <> [] -> Forall (fun c => c <> Unicode.LF) label ->
      not_at Unicode.isspace label ->
      (ws = [] ->
       forall d rest, is_integer d -> rest <> [] -> label <> d ++ lit "." ++ rest) ->
      Forall (fun q => is_heading q = false) post ->
      let num := PyStr.join (lit ".") ints in
      let p := num ++ lit "." ++ ws ++ label in
      is_heading p = true
      /\ heading_label p = Some (num ++ lit " " ++ label)
      /\ exists tail,
           detect_sections (pre ++ p :: post ++ more)
           = detect_sections pre ++ map (pair (num ++ lit " " ++ label)) post
             ++ tail)
  /\ (forall pre post more : list str,
        Forall (fun q => is_heading q = false) post ->
        exists tail,
          detect_sections (pre ++ lit "3.1. Enzims" :: post ++ more)
          = detect_sections pre ++ map (pair (lit "3.1 Enzims")) post ++ tail).
Proof.
  split.
  - intros ints ws label pre post more Hne Hints Hws Hl Hlf Hsp Hmax Hpost num p.
    destruct ints as [|d0 ints]; [congruence|].
    inversion Hints as [|? ? Hd0 Hints']; subst.
    destruct (section_regex_longest d0 ints ws label Hd0 Hints' Hws Hl Hlf Hsp Hmax)
      as (m & Hm & H1 & H3).
    assert (Hp : p = d0 ++ dotted_groups ints ++ 46%Z :: ws ++ label).
    { unfold p, num. rewrite join_dotted, <- app_assoc. reflexivity. }
    assert (Hlabel : heading_label p = Some (num ++ lit " " ++ label)).
    { unfold heading_label. rewrite Hp, Hm, H1, H3. unfold num.
      now rewrite join_dotted. }
    split; [|split].
    + apply heading_label_some. eauto.
    + exact Hlabel.
    + now apply heading_effect.
  - intros pre post more Hpost. apply heading_effect; [|exact Hpost].
    vm_compute. reflexivity.
Qed.

(** An instance of [heading_sets_section]. *)
Lemma heading_sets_section_witness :
  is_heading (lit "2.3. Les reaccions") = true
  /\ heading_label (lit "2.3. Les reaccions") = Some (lit "2.3 Les reaccions").
Proof.
  destruct (proj1 heading_sets_section [lit "2"; lit "3"] (lit " ")
              (lit "Les reaccions") [] [] [])
    as (H1 & H2 & _).
  - discriminate.
  - repeat constructor; discriminate.
  - repeat constructor.
  - discriminate.
  - vm_compute. repeat constructor; discriminate.
  - reflexivity.
  - discriminate.
  - constructor.
  - split; [exact H1 | exact H2].
Defined.

(** C7. A paragraph that starts with a number, a period and more text on
    the line is taken for a heading although it is none: the measurement
    3.5 kg de mostra matches the pattern, adds no pair and sets the label
    of the sentences that follow to 3 5 kg de mostra. *)
Theorem measurement_is_heading :
  (forall (ds rest : str) (c : char),
      is_integer ds -> c <> Unicode.LF ->
      is_heading (ds ++ lit "." ++ c :: rest) = true)
  /\ is_heading (lit "3.5 kg de mostra") = true
  /\ (forall pre post more : list str,
        Forall (fun q => is_heading q = false) post ->
        exists tail,
          detect_sections (pre ++ lit "3.5 kg de mostra" :: post ++ more)
          = detect_sections pre ++ map (pair (lit "3 5 kg de mostra")) post
            ++ tail).
Proof.
  split; [|split].
  - intros ds rest c [Hne Hds] Hc. unfold is_heading.
    destruct (Re.match_ SECTION_REGEX (ds ++ lit "." ++ c :: rest)) eqn:E;
      [reflexivity|].
    exfalso. revert E. apply (match_complete _ _ rest).
    unfold SECTION_REGEX.
    apply (M_cat _ _ _ (lit "." ++ c :: rest)).
    + apply M_group. apply (M_cat _ _ _ (lit "." ++ c :: rest)).
      * now apply matches_plus_class.
      * apply M_star_stop.
    + apply (M_cat _ _ _ (c :: rest)); [now apply M_class|].
      apply (M_cat _ _ _ (c :: rest)); [apply M_star_stop|].
      apply M_group. apply (M_cat _ _ _ rest); [|apply M_star_stop].
      apply M_class. apply negb_true_iff, Z.eqb_neq. exact Hc.
  - vm_compute. reflexivity.
  - intros pre post more Hpost. apply heading_effect; [|exact Hpost].
    vm_compute. reflexivity.
Qed.

(** An instance of [measurement_is_heading]. *)
Lemma measurement_is_heading_witness :
  is_heading (lit "3.5 kg de mostra") = true.
Proof.
  apply (proj1 measurement_is_heading (lit "3") (lit " kg de mostra") 53%Z).
  - split; [discriminate | repeat constructor].
  - discriminate.
Defined.

(** ** The command line *)

Lemma eqb_eq (a b : str) : PyStr.eqb a b = true <-> a = b.
Proof.
  revert b; induction a as [|x a IH]; intros [|y b]; simpl;
    try (split; [discriminate | congruence]); [split; reflexivity|].
  rewrite andb_true_iff, Z.eqb_eq, IH. split.
  - intros [-> ->]. reflexivity.
  - intros E. injection E as -> ->. split; reflexivity.
Qed.

Lemma eqb_neq (a b : str) : a <> b -> PyStr.eqb a b = false.
Proof.
  intros H. destruct (PyStr.eqb a b) eqn:E; [|reflexivity].
  apply eqb_eq in E. contradiction.
Qed.

(** C6. For an existing input path whose lower-cased suffix is neither
    .pdf nor .docx, the run raises the value error whose message names PDF
    and DOCX, and leaves the world as it was: the output file is neither
    created nor modified, and nothing is printed. *)
Theorem unsupported_format
    (lower : str -> str)
    (pdf_pages : str -> result (list (option str)))
    (docx_paragraphs : str -> result (list str))
    (prog path : str) (w : world) :
  existing w path = true ->
  lower (suffix path) <> lit ".pdf" ->
  lower (suffix path) <> lit ".docx" ->
  main lower pdf_pages docx_paragraphs [prog; path] w
  = (Raise (ValueError (lit "Format no suportat. Usa PDF o DOCX.")), w)
  /\ output_file (snd (main lower pdf_pages docx_paragraphs [prog; path] w))
     = output_file w.
Proof.
  intros He Hpdf Hdocx.
  assert (H : main lower pdf_pages docx_paragraphs [prog; path] w
              = (Raise (ValueError (lit "Format no suportat. Usa PDF o DOCX.")), w)).
  { unfold main. cbn [length Nat.eqb negb nth].
    unfold io_bind at 1, path_exists. rewrite He. cbn [negb].
    unfold io_bind at 1, lift, extract_text.
    rewrite (eqb_neq _ _ Hpdf), (eqb_neq _ _ Hdocx). reflexivity. }
  split; [exact H | now rewrite H].
Qed.

(** An instance of [unsupported_format]. *)
Lemma unsupported_format_witness :
  main ascii_lower no_pages no_paragraphs [lit "generate_cards.py"; lit "notes.TXT"]
       world_all
  = (Raise (ValueError (lit "Format no suportat. Usa PDF o DOCX.")), world_all).
Proof.
  apply (unsupported_format ascii_lower no_pages no_paragraphs
           (lit "generate_cards.py") (lit "notes.TXT") world_all).
  - reflexivity.
  - vm_compute. discriminate.
  - vm_compute. discriminate.
Defined.

(** C10. With one argument that names a path that does not exist, the run
    raises file-not-found, whatever the suffix of the path: the existence
    check comes before the dispatch on the suffix, so the value error for
    an unsupported format is not what is raised. *)
Theorem missing_path_first
    (lower : str -> str)
    (pdf_pages : str -> result (list (option str)))
    (docx_paragraphs : str -> result (list str))
    (prog path : str) (w : world) :
  existing w path = false ->
  main lower pdf_pages docx_paragraphs [prog; path] w
  = (Raise (FileNotFoundError path), w)
  /\ forall msg, fst (main lower pdf_pages docx_paragraphs [prog; path] w)
                 <> Raise (ValueError msg).
Proof.
  intros He.
  assert (H : main lower pdf_pages docx_paragraphs [prog; path] w
              = (Raise (FileNotFoundError path), w)).
  { unfold main. cbn [length Nat.eqb negb nth].
    unfold io_bind at 1, path_exists. rewrite He. reflexivity. }
  split; [exact H|]. intros msg. rewrite H. discriminate.
Qed.

(** An instance of [missing_path_first]. *)
Lemma missing_path_first_witness :
  main ascii_lower no_pages no_paragraphs [lit "generate_cards.py"; lit "notes.txt"]
       world_none
  = (Raise (FileNotFoundError (lit "notes.txt")), world_none).
Proof.
  apply (missing_path_first ascii_lower no_pages no_paragraphs
           (lit "generate_cards.py") (lit "notes.txt") world_none).
  reflexivity.
Defined.

(** ** The utf-8 codec *)

Lemma scalar_bounds (c : char) :
  Utf8.scalar c = true ->
  (0 <= c < 0x110000 /\ ~ (0xD800 <= c <= 0xDFFF))%Z.
Proof.
  unfold Utf8.scalar, Utf8.is_surrogate.
  rewrite !andb_true_iff, negb_true_iff, andb_false_iff.
  rewrite Z.leb_le, Z.ltb_lt, !Z.leb_gt. lia.
Qed.

Lemma decode_encode_char (c : char) (rest : list Z) :
  Utf8.scalar c = true ->
  exists bs, Utf8.encode_char c = Some bs
    /\ Utf8.decode (bs ++ rest) = option_map (cons c) (Utf8.decode rest).
Proof.
  intros H. apply scalar_bounds in H as [Hr Hs].
  unfold Utf8.encode_char, Utf8.is_surrogate.
  destruct (Z.ltb_spec c 0x80); [|destruct (Z.ltb_spec c 0x800);
    [|destruct (Z.ltb_spec c 0x10000)]].
  - replace (0 <=? c)%Z with true by (symmetry; bsolve). cbn [andb].
    eexists; split; [reflexivity|].
    cbn [app Utf8.decode]. head_true. reflexivity.
  - replace (0 <=? c)%Z with true by (symmetry; bsolve).
    replace (128 <=? c)%Z with true by (symmetry; bsolve). cbn [andb].
    eexists; split; [reflexivity|].
    cbn [app Utf8.decode]. unfold Utf8.continuation.
    head_false. head_true. head_true. f_equal. f_equal. zsolve.
  - replace (0 <=? c)%Z with true by (symmetry; bsolve).
    replace (128 <=? c)%Z with true by (symmetry; bsolve).
    replace (2048 <=? c)%Z with true by (symmetry; bsolve). cbn [andb].
    replace ((55296 <=? c)%Z && (c <=? 57343)%Z) with false by (symmetry; bsolve).
    eexists; split; [reflexivity|].
    cbn [app Utf8.decode]. unfold Utf8.continuation, Utf8.is_surrogate.
    head_false. head_false. head_true. head_true. f_equal. f_equal. zsolve.
  - replace (0 <=? c)%Z with true by (symmetry; bsolve).
    replace (128 <=? c)%Z with true by (symmetry; bsolve).
    replace (2048 <=? c)%Z with true by (symmetry; bsolve).
    replace (65536 <=? c)%Z with true by (symmetry; bsolve).
    replace (c <? 1114112)%Z with true by (symmetry; bsolve). cbn [andb].
    eexists; split; [reflexivity|].
    cbn [app Utf8.decode]. unfold Utf8.continuation.
    head_false. head_false. head_false. head_true. head_true.
    f_equal. f_equal. zsolve.
Qed.

Lemma decode_encode (s : str) :
  Forall (fun c => Utf8.scalar c = true) s ->
  exists bs, Utf8.encode s = Some bs
    /\ forall rest, Utf8.decode (bs ++ rest)
                    = option_map (app s) (Utf8.decode rest).
Proof.
  induction 1 as [|c s Hc _ (bs & E & D)].
  - exists []. split; [reflexivity|]. intros rest. simpl.
    now destruct (Utf8.decode rest).
  - destruct (decode_encode_char c [] Hc) as (cb & Ec & _).
    exists (cb ++ bs). split.
    + simpl. now rewrite Ec, E.
    + intros rest. rewrite <- app_assoc.
      destruct (decode_encode_char c (bs ++ rest) Hc) as (cb' & Ec' & Dc).
      assert (cb' = cb) as -> by congruence.
      rewrite Dc, D. now destruct (Utf8.decode rest).
Qed.

Lemma encode_app (a b : str) (ea eb : list Z) :
  Utf8.encode a = Some ea -> Utf8.encode b = Some eb ->
  Utf8.encode (a ++ b) = Some (ea ++ eb).
Proof.
  revert ea; induction a as [|c a IH]; intros ea Ha Hb.
  - simpl in Ha. injection Ha as <-. exact Hb.
  - simpl in Ha. simpl.
    destruct (Utf8.encode_char c) as [cb|]; [|discriminate].
    destruct (Utf8.encode a) as [ea'|]; [|discriminate].
    injection Ha as <-. rewrite (IH ea' eq_refl Hb).
    now rewrite app_assoc.
Qed.

(** ** The writer *)

Lemma scalar_text_app (a b : str) :
  scalar_text a -> scalar_text b -> scalar_text (a ++ b).
Proof. intros Ha Hb. apply Forall_app. now split. Qed.

Lemma field_data_scalar (f : str) :
  scalar_text f -> scalar_text (Csv.field_data f).
Proof.
  induction 1 as [|c f Hc _ IH]; [constructor|].
  unfold Csv.field_data. cbn [flat_map]. fold (Csv.field_data f).
  destruct (c =? Csv.quotechar)%Z.
  - constructor; [reflexivity|]. now constructor.
  - now constructor.
Qed.

Lemma join_append_scalar (f : str) (q : bool) :
  scalar_text f -> scalar_text (Csv.join_append f q).
Proof.
  intros Hf. unfold Csv.join_append.
  destruct (q || existsb Csv.special f); [|exact Hf].
  apply scalar_text_app; [now repeat constructor|].
  apply scalar_text_app; [now apply field_data_scalar | now repeat constructor].
Qed.

Lemma join_fields_scalar (row : list str) :
  Forall scalar_text row -> scalar_text (Csv.join_fields row).
Proof.
  induction 1 as [|f row Hf Hrow IH]; [constructor|].
  destruct row as [|f2 row]; [now apply join_append_scalar|].
  change (Csv.join_fields (f :: f2 :: row))
    with (Csv.join_append f false ++ [Csv.delimiter] ++ Csv.join_fields (f2 :: row)).
  apply scalar_text_app; [now apply join_append_scalar|].
  apply scalar_text_app; [now repeat constructor | exact IH].
Qed.

Lemma writerow_scalar (row : list str) :
  Forall scalar_text row -> scalar_text (Csv.writerow row).
Proof.
  intros Hrow. unfold Csv.writerow.
  apply scalar_text_app; [|now repeat constructor].
  pose proof (join_fields_scalar row Hrow) as Hj.
  destruct row; [exact Hj|].
  destruct (Csv.join_fields (s :: row)); [|exact Hj].
  now repeat constructor.
Qed.

Lemma file_write_ok (line : str) (w : world) (old : list Z) :
  scalar_text line ->
  exists bs, Utf8.encode line = Some bs
    /\ file_write line (written w old) = (Ok tt, written w (old ++ bs)).
Proof.
  intros Hl. destruct (decode_encode line Hl) as (bs & E & _).
  exists bs. split; [exact E|]. unfold file_write. rewrite E. reflexivity.
Qed.

Lemma writerows_ok (cards : list card) (w : world) (old : list Z) :
  Forall (fun c => Forall scalar_text (dict_to_list c)) cards ->
  exists bs,
    Utf8.encode (flat_map (fun c => Csv.writerow (dict_to_list c)) cards) = Some bs
    /\ writerows cards (written w old) = (Ok tt, written w (old ++ bs)).
Proof.
  intros H. revert old. induction H as [|c cards Hc _ IH]; intros old.
  - exists []. split; [reflexivity|]. simpl. now rewrite app_nil_r.
  - destruct (file_write_ok _ w old (writerow_scalar _ Hc)) as (b1 & E1 & W1).
    destruct (IH (old ++ b1)) as (b2 & E2 & W2).
    exists (b1 ++ b2). split.
    + cbn [flat_map]. now apply encode_app.
    + cbn [writerows]. unfold io_bind. rewrite W1, W2.
      now rewrite app_assoc.
Qed.

Lemma fieldnames_scalar : Forall scalar_text fieldnames.
Proof. repeat constructor. Qed.

Lemma open_output_ok (w : world) :
  output_writable w = true -> open_output w = (Ok tt, written w []).
Proof.
  intros Hw. unfold open_output, written.
  destruct (output_writable w); [reflexivity | discriminate].
Qed.

Lemma write_csv_ok (cards : list card) (w : world) :
  output_writable w = true ->
  Forall (fun c => Forall scalar_text (dict_to_list c)) cards ->
  exists bytes,
    write_csv cards w = (Ok tt, written w bytes)
    /\ Utf8.encode (csv_text cards) = Some bytes
    /\ Utf8.decode bytes = Some (csv_text cards).
Proof.
  intros Hw Hc.
  destruct (file_write_ok _ w [] (writerow_scalar _ fieldnames_scalar))
    as (b1 & E1 & W1).
  destruct (writerows_ok cards w ([] ++ b1) Hc) as (b2 & E2 & W2).
  exists (b1 ++ b2).
  assert (E : Utf8.encode (csv_text cards) = Some (b1 ++ b2))
    by (now apply encode_app).
  split; [|split; [exact E|]].
  - unfold write_csv, writeheader, io_bind.
    rewrite (open_output_ok w Hw), W1, W2. reflexivity.
  - assert (Hs : scalar_text (csv_text cards)).
    { apply scalar_text_app; [apply writerow_scalar, fieldnames_scalar|].
      clear -Hc. induction Hc as [|c cards Hc' _ IH]; [constructor|].
      cbn [flat_map]. apply scalar_text_app; [now apply writerow_scalar | exact IH]. }
    destruct (decode_encode _ Hs) as (bs & E' & D).
    assert (bs = b1 ++ b2) as -> by congruence.
    specialize (D []). rewrite app_nil_r in D. rewrite D. simpl.
    now rewrite app_nil_r.
Qed.

(** ** The reader *)

Lemma symbols_cr (s : str) :
  Csv.symbols (Unicode.CR :: s) = Csv.Ch Unicode.CR :: after_cr s.
Proof.
  destruct s as [|c s]; [reflexivity|].
  cbn [Csv.symbols after_cr]. change (Unicode.CR =? Unicode.LF)%Z with false.
  change (Unicode.CR =? Unicode.CR)%Z with true. cbn iota.
  now destruct (c =? Unicode.LF)%Z.
Qed.

Lemma symbols_lf (s : str) :
  Csv.symbols (Unicode.LF :: s)
  = Csv.Ch Unicode.LF :: Csv.EOL :: Csv.symbols s.
Proof. reflexivity. Qed.

Lemma symbols_plain (c : char) (t : str) :
  c <> Unicode.LF -> c <> Unicode.CR -> t <> [] ->
  Csv.symbols (c :: t) = Csv.Ch c :: Csv.symbols t.
Proof.
  intros Hl Hc Ht. cbn [Csv.symbols].
  apply Z.eqb_neq in Hl, Hc. rewrite Hl, Hc.
  destruct t; [congruence | reflexivity].
Qed.

Lemma records_ch (limit : nat) (p p' : Csv.parser) (c : char)
    (rest : list Csv.sym) :
  Csv.process_char limit p (Csv.Ch c) = Some p' ->
  Csv.records limit p (Csv.Ch c :: rest) = Csv.records limit p' rest.
Proof. intros H. cbn [Csv.records]. now rewrite H. Qed.

Lemma records_eol_quoted (limit : nat) (acc : str) (fs : list str)
    (rest : list Csv.sym) :
  Csv.records limit (Csv.Parser Csv.IN_QUOTED_FIELD acc fs) (Csv.EOL :: rest)
  = Csv.records limit (Csv.Parser Csv.IN_QUOTED_FIELD acc fs) rest.
Proof. reflexivity. Qed.

Lemma add_char_ok (limit : nat) (p : Csv.parser) (c : char) (s : Csv.state) :
  length (Csv.field p) < limit ->
  Csv.add_char limit p c s
  = Some (Csv.Parser s (Csv.field p ++ [c]) (Csv.fields p)).
Proof.
  intros H. unfold Csv.add_char.
  apply Nat.leb_gt in H. now rewrite H.
Qed.

Lemma quoted_char (limit : nat) (acc : str) (fs : list str) (c : char) :
  c <> Csv.quotechar -> length acc < limit ->
  Csv.process_char limit (Csv.Parser Csv.IN_QUOTED_FIELD acc fs) (Csv.Ch c)
  = Some (Csv.Parser Csv.IN_QUOTED_FIELD (acc ++ [c]) fs).
Proof.
  intros Hq Hl. cbn [Csv.process_char Csv.st].
  apply Z.eqb_neq in Hq. rewrite Hq. now apply add_char_ok.
Qed.

Lemma quoted_quote (limit : nat) (acc : str) (fs : list str)
    (rest : list Csv.sym) :
  length acc < limit ->
  Csv.records limit (Csv.Parser Csv.IN_QUOTED_FIELD acc fs)
    (Csv.Ch Csv.quotechar :: Csv.Ch Csv.quotechar :: rest)
  = Csv.records limit
      (Csv.Parser Csv.IN_QUOTED_FIELD (acc ++ [Csv.quotechar]) fs) rest.
Proof.
  intros Hl.
  rewrite (records_ch limit _ (Csv.Parser Csv.QUOTE_IN_QUOTED_FIELD acc fs))
    by reflexivity.
  apply records_ch. cbn [Csv.process_char Csv.st].
  change (Csv.quotechar =? Csv.quotechar)%Z with true. cbn iota.
  now apply add_char_ok.
Qed.

Lemma field_data_cons (c : char) (f : str) :
  Csv.field_data (c :: f)
  = (if (c =? Csv.quotechar)%Z then [Csv.quotechar; c] else [c])
    ++ Csv.field_data f.
Proof. reflexivity. Qed.

(** Inside quotes the reader collects the field as it was written, line
    ends included. *)
Lemma quoted_content (limit : nat) (f : str) :
  forall (acc : str) (fs : list str) (t : str),
    length (acc ++ f) <= limit ->
    Csv.records limit (Csv.Parser Csv.IN_QUOTED_FIELD acc fs)
      (Csv.symbols (Csv.field_data f ++ Csv.quotechar :: t))
    = Csv.records limit (Csv.Parser Csv.IN_QUOTED_FIELD (acc ++ f) fs)
        (Csv.symbols (Csv.quotechar :: t))
    /\ Csv.records limit (Csv.Parser Csv.IN_QUOTED_FIELD acc fs)
         (after_cr (Csv.field_data f ++ Csv.quotechar :: t))
       = Csv.records limit (Csv.Parser Csv.IN_QUOTED_FIELD (acc ++ f) fs)
           (Csv.symbols (Csv.quotechar :: t)).
Proof.
  induction f as [|c f IH]; intros acc fs t Hlen.
  - rewrite app_nil_r. split; reflexivity.
  - assert (Hacc : length acc < limit)
      by (rewrite length_app in Hlen; simpl in Hlen; lia).
    assert (Hlen' : length ((acc ++ [c]) ++ f) <= limit)
      by (rewrite <- app_assoc; exact Hlen).
    destruct (IH (acc ++ [c]) fs t Hlen') as [IH1 IH2].
    rewrite <- app_assoc in IH1, IH2. cbn [app] in IH1, IH2.
    assert (Hne : Csv.field_data f ++ Csv.quotechar :: t <> [])
      by (destruct (Csv.field_data f); discriminate).
    assert (P1 : Csv.records limit (Csv.Parser Csv.IN_QUOTED_FIELD acc fs)
                   (Csv.symbols (Csv.field_data (c :: f) ++ Csv.quotechar :: t))
                 = Csv.records limit
                     (Csv.Parser Csv.IN_QUOTED_FIELD (acc ++ c :: f) fs)
                     (Csv.symbols (Csv.quotechar :: t))).
    { rewrite field_data_cons. destruct (Z.eqb_spec c Csv.quotechar) as [->|Hq].
      - cbn [app]. rewrite symbols_plain; [|discriminate|discriminate|discriminate].
        rewrite symbols_plain; [|discriminate|discriminate|exact Hne].
        rewrite quoted_quote by exact Hacc. exact IH1.
      - cbn [app]. destruct (Z.eq_dec c Unicode.LF) as [->|Hl].
        + rewrite symbols_lf.
          rewrite (records_ch limit _ _ _ _ (quoted_char limit acc fs _ Hq Hacc)).
          rewrite records_eol_quoted. exact IH1.
        + destruct (Z.eq_dec c Unicode.CR) as [->|Hc].
          * rewrite symbols_cr.
            rewrite (records_ch limit _ _ _ _ (quoted_char limit acc fs _ Hq Hacc)).
            exact IH2.
          * rewrite symbols_plain; [|exact Hl|exact Hc|exact Hne].
            rewrite (records_ch limit _ _ _ _ (quoted_char limit acc fs _ Hq Hacc)).
            exact IH1. }
    split; [exact P1|].
    rewrite field_data_cons. destruct (Z.eqb_spec c Csv.quotechar) as [->|Hq].
    + cbn [app after_cr]. change (Csv.quotechar =? Unicode.LF)%Z with false.
      cbn iota. rewrite records_eol_quoted.
      rewrite field_data_cons in P1.
      change (Csv.quotechar =? Csv.quotechar)%Z with true in P1. exact P1.
    + cbn [app after_cr]. destruct (Z.eqb_spec c Unicode.LF) as [->|Hl].
      * rewrite (records_ch limit _ _ _ _ (quoted_char limit acc fs _ Hq Hacc)).
        rewrite records_eol_quoted. exact IH1.
      * rewrite records_eol_quoted. rewrite field_data_cons in P1.
        apply Z.eqb_neq in Hq. rewrite Hq in P1. exact P1.
Qed.

Lemma not_special (c : char) :
  Csv.special c = false ->
  c <> Csv.delimiter /\ c <> Csv.quotechar
  /\ c <> Unicode.CR /\ c <> Unicode.LF.
Proof.
  unfold Csv.special, Csv.lineterminator. cbn [existsb].
  rewrite !orb_false_iff, !Z.eqb_neq. tauto.
Qed.

Lemma plain_char (limit : nat) (s : Csv.state) (acc : str) (fs : list str)
    (c : char) :
  Csv.special c = false -> length acc < limit ->
  s = Csv.START_RECORD \/ s = Csv.START_FIELD \/ s = Csv.IN_FIELD ->
  Csv.process_char limit (Csv.Parser s acc fs) (Csv.Ch c)
  = Some (Csv.Parser Csv.IN_FIELD (acc ++ [c]) fs).
Proof.
  intros Hs Hl Hst. apply not_special in Hs as (Hd & Hq & Hc & Hlf).
  assert (Hn : Csv.newline c = false).
  { unfold Csv.newline. apply Z.eqb_neq in Hc, Hlf. now rewrite Hc, Hlf. }
  apply Z.eqb_neq in Hd, Hq.
  destruct Hst as [-> | [-> | ->]]; cbn [Csv.process_char Csv.st];
    rewrite ?Hn, ?Hq, ?Hd; now apply add_char_ok.
Qed.

(** Outside quotes the reader collects the characters up to the next
    delimiter or line end. *)
Lemma plain_content (limit : nat) (f : str) :
  forall (s : Csv.state) (acc : str) (fs : list str) (t : str),
    existsb Csv.special f = false -> f <> [] -> t <> [] ->
    length (acc ++ f) <= limit ->
    s = Csv.START_RECORD \/ s = Csv.START_FIELD \/ s = Csv.IN_FIELD ->
    Csv.records limit (Csv.Parser s acc fs) (Csv.symbols (f ++ t))
    = Csv.records limit (Csv.Parser Csv.IN_FIELD (acc ++ f) fs)
        (Csv.symbols t).
Proof.
  induction f as [|c f IH]; intros s acc fs t Hsp Hne Ht Hlen Hst;
    [congruence|].
  cbn [existsb] in Hsp. apply orb_false_iff in Hsp as [Hc Hf].
  assert (Hacc : length acc < limit)
    by (rewrite length_app in Hlen; simpl in Hlen; lia).
  pose proof (not_special c Hc) as (_ & _ & Hcr & Hlf).
  cbn [app]. rewrite symbols_plain; [|exact Hlf|exact Hcr|].
  2:{ destruct f; [exact Ht | discriminate]. }
  rewrite (records_ch limit _ _ _ _ (plain_char limit s acc fs c Hc Hacc Hst)).
  destruct f as [|c2 f].
  - reflexivity.
  - replace (acc ++ c :: c2 :: f) with ((acc ++ [c]) ++ c2 :: f)
      by (now rewrite <- app_assoc).
    apply IH; auto; [discriminate|]. now rewrite <- app_assoc.
Qed.

Lemma collected_delimiter (limit : nat) (f : str) (fs : list str)
    (p : Csv.parser) (rest : list Csv.sym) :
  collected f fs p ->
  Csv.records limit p (Csv.Ch Csv.delimiter :: rest)
  = Csv.records limit (Csv.Parser Csv.START_FIELD [] (fs ++ [f])) rest.
Proof.
  destruct p as [s fld fds]. unfold collected. cbn [Csv.st Csv.field Csv.fields].
  intros [-> [(-> & -> & ->) | [(-> & ->) | (-> & ->)]]]; reflexivity.
Qed.

Lemma collected_crlf (limit : nat) (f : str) (fs : list str)
    (p : Csv.parser) (rest : list Csv.sym) :
  collected f fs p ->
  Csv.records limit p
    (Csv.Ch Unicode.CR :: Csv.Ch Unicode.LF :: Csv.EOL :: rest)
  = option_map (cons (fs ++ [f])) (Csv.records limit Csv.reset rest).
Proof.
  destruct p as [s fld fds]. unfold collected. cbn [Csv.st Csv.field Csv.fields].
  intros [-> [(-> & -> & ->) | [(-> & ->) | (-> & ->)]]]; reflexivity.
Qed.

Lemma symbols_crlf (t : str) :
  Csv.symbols (Csv.lineterminator ++ t)
  = Csv.Ch Unicode.CR :: Csv.Ch Unicode.LF :: Csv.EOL :: Csv.symbols t.
Proof. reflexivity. Qed.

(** Reading one written field, from the start of a record or of a field,
    up to what follows it. *)
Lemma field_collect (limit : nat) (f : str) (s : Csv.state) (fs : list str)
    (t : str) :
  s = Csv.START_RECORD \/ s = Csv.START_FIELD ->
  length f <= limit -> t <> [] ->
  exists p,
    Csv.records limit (Csv.Parser s [] fs)
      (Csv.symbols (Csv.join_append f false ++ t))
    = Csv.records limit p (Csv.symbols t)
    /\ (collected f fs p
        \/ (f = [] /\ s = Csv.START_RECORD /\ p = Csv.Parser s [] fs)).
Proof.
  intros Hs Hlen Ht. unfold Csv.join_append. cbn [orb].
  destruct (existsb Csv.special f) eqn:Hsp.
  - exists (Csv.Parser Csv.QUOTE_IN_QUOTED_FIELD f fs). split.
    + cbn [app]. rewrite <- app_assoc. cbn [app].
      rewrite symbols_plain; [|discriminate|discriminate|].
      2:{ destruct (Csv.field_data f); discriminate. }
      rewrite (records_ch limit _ (Csv.Parser Csv.IN_QUOTED_FIELD [] fs)).
      2:{ destruct Hs as [-> | ->]; reflexivity. }
      rewrite (proj1 (quoted_content limit f [] fs t Hlen)). cbn [app].
      rewrite symbols_plain; [|discriminate|discriminate|exact Ht].
      apply records_ch. reflexivity.
    + left. split; [reflexivity|]. right. right. split; reflexivity.
  - destruct f as [|c f].
    + exists (Csv.Parser s [] fs). split; [reflexivity|].
      destruct Hs as [-> | ->].
      * right. auto.
      * left. split; [reflexivity|]. left. auto.
    + exists (Csv.Parser Csv.IN_FIELD (c :: f) fs). split.
      * apply (plain_content limit (c :: f) s [] fs t Hsp); auto.
        -- discriminate.
        -- destruct Hs as [-> | ->]; auto.
      * left. split; [reflexivity|]. right. left. split; reflexivity.
Qed.

Lemma join_fields_cons2 (f f2 : str) (row : list str) :
  Csv.join_fields (f :: f2 :: row)
  = Csv.join_append f false ++ [Csv.delimiter] ++ Csv.join_fields (f2 :: row).
Proof. reflexivity. Qed.

Lemma join_append_nil (f : str) (q : bool) :
  Csv.join_append f q = [] -> f = [].
Proof.
  unfold Csv.join_append. destruct (q || existsb Csv.special f).
  - discriminate.
  - auto.
Qed.

(** Reading the fields of one written record and its line end. *)
Lemma fields_roundtrip (limit : nat) (row : list str) :
  forall (s : Csv.state) (fs : list str) (more : str),
    row <> [] ->
    Forall (fun f => length f <= limit) row ->
    s = Csv.START_FIELD \/ (s = Csv.START_RECORD /\ row <> [[]]) ->
    Csv.records limit (Csv.Parser s [] fs)
      (Csv.symbols (Csv.join_fields row ++ Csv.lineterminator ++ more))
    = option_map (cons (fs ++ row)) (Csv.records limit Csv.reset (Csv.symbols more)).
Proof.
  induction row as [|f row IH]; intros s fs more Hne Hlen Hs; [congruence|].
  inversion Hlen as [|? ? Hf Hrow]; subst.
  assert (Hs' : s = Csv.START_RECORD \/ s = Csv.START_FIELD) by tauto.
  destruct row as [|f2 row].
  - cbn [Csv.join_fields].
    destruct (field_collect limit f s fs (Csv.lineterminator ++ more) Hs' Hf)
      as (p & Hp & Hc); [discriminate|].
    rewrite Hp, symbols_crlf.
    destruct Hc as [Hc | (-> & -> & ->)].
    + now apply collected_crlf.
    + exfalso. destruct Hs as [Hs | [_ Hs]]; [discriminate | now apply Hs].
  - rewrite join_fields_cons2, <- !app_assoc.
    destruct (field_collect limit f s fs
                ([Csv.delimiter] ++ Csv.join_fields (f2 :: row)
                 ++ Csv.lineterminator ++ more) Hs' Hf)
      as (p & Hp & Hc); [discriminate|].
    rewrite Hp. cbn [app].
    rewrite symbols_plain; [|discriminate|discriminate|].
    2:{ destruct (Csv.join_fields (f2 :: row)); discriminate. }
    assert (Hd : Csv.records limit p
                   (Csv.Ch Csv.delimiter
                    :: Csv.symbols (Csv.join_fields (f2 :: row)
                                    ++ Csv.lineterminator ++ more))
                 = Csv.records limit (Csv.Parser Csv.START_FIELD [] (fs ++ [f]))
                     (Csv.symbols (Csv.join_fields (f2 :: row)
                                   ++ Csv.lineterminator ++ more))).
    { destruct Hc as [Hc | (-> & -> & ->)].
      - now apply collected_delimiter.
      - reflexivity. }
    rewrite Hd, IH; [|discriminate|exact Hrow|now left].
    now rewrite <- app_assoc.
Qed.

(** Reading one written record gives back its fields. *)
Lemma writerow_roundtrip (limit : nat) (row : list str) (more : str) :
  Forall (fun f => length f <= limit) row ->
  Csv.records limit Csv.reset (Csv.symbols (Csv.writerow row ++ more))
  = option_map (cons row) (Csv.records limit Csv.reset (Csv.symbols more)).
Proof.
  intros Hlen. unfold Csv.writerow. rewrite <- app_assoc.
  destruct row as [|f row].
  - reflexivity.
  - destruct (Csv.join_fields (f :: row)) eqn:E.
    + assert (f = [] /\ row = []) as [-> ->].
      { destruct row as [|f2 row].
        - split; [|reflexivity]. cbn [Csv.join_fields] in E.
          now apply join_append_nil in E.
        - rewrite join_fields_cons2 in E.
          apply app_eq_nil in E as [_ E]. discriminate. }
      reflexivity.
    + rewrite <- E.
      apply (fields_roundtrip limit (f :: row) Csv.START_RECORD [] more);
        [discriminate | exact Hlen |].
      right. split; [reflexivity|]. intros H. rewrite H in E. discriminate.
Qed.

Lemma reader_roundtrip (limit : nat) (rows : list (list str)) :
  Forall (Forall (fun f => length f <= limit)) rows ->
  Csv.reader limit (flat_map Csv.writerow rows) = Some rows.
Proof.
  unfold Csv.reader. induction 1 as [|row rows Hrow _ IH]; [reflexivity|].
  cbn [flat_map]. rewrite writerow_roundtrip by exact Hrow.
  now rewrite IH.
Qed.

Lemma csv_text_rows (cards : list card) :
  csv_text cards = flat_map Csv.writerow (fieldnames :: map dict_to_list cards).
Proof.
  unfold csv_text. cbn [flat_map]. f_equal.
  induction cards as [|c cards IH]; [reflexivity|].
  cbn [flat_map map]. now rewrite IH.
Qed.

Lemma cards_fit_spec (limit : nat) (cards : list card) :
  cards_fit limit cards = true ->
  Forall (fun c =>
            Forall (fun f => Forall (fun x => Utf8.scalar x = true) f
                             /\ length f <= limit)
                   [type c; front c; back c; section c; approved c])
         cards.
Proof.
  unfold cards_fit. rewrite forallb_forall, Forall_forall.
  intros H c Hc. specialize (H c Hc).
  rewrite forallb_forall in H. apply Forall_forall. intros f Hf.
  specialize (H f Hf). apply andb_true_iff in H as [H1 H2].
  split; [|now apply Nat.leb_le].
  apply Forall_forall. now apply forallb_forall.
Qed.

(** C5. Writing N cards whose text is made of Unicode scalar values, to an
    output file that can be opened, leaves a file whose bytes decode as
    utf-8 and read back, with a csv reader whose field size limit no field
    exceeds, as the header row type, front, back, section, approved
    followed by the N rows of the cards, field for field and in order. *)
Theorem csv_round_trip (cards : list card) (w : world) (limit : nat) :
  output_writable w = true ->
  Forall (fun c =>
            Forall (fun f => Forall (fun x => Utf8.scalar x = true) f
                             /\ length f <= limit)
                   [type c; front c; back c; section c; approved c])
         cards ->
  8 <= limit ->
  exists bytes text,
    write_csv cards w
    = (Ok tt, World (existing w) (output_writable w) (Some bytes) (stdout w))
    /\ Utf8.decode bytes = Some text
    /\ Csv.reader limit text
       = Some ([lit "type"; lit "front"; lit "back"; lit "section";
                lit "approved"]
               :: map (fun c => [type c; front c; back c; section c;
                                 approved c]) cards)
    /\ length (map (fun c => [type c; front c; back c; section c;
                              approved c]) cards) = length cards.
Proof.
  intros Hw Hcards Hlimit.
  assert (Hs : Forall (fun c => Forall scalar_text (dict_to_list c)) cards).
  { eapply Forall_impl; [|exact Hcards]. intros c Hc.
    eapply Forall_impl; [|exact Hc]. intros f [Hf _]. exact Hf. }
  assert (Hl : Forall (Forall (fun f => length f <= limit))
                 (fieldnames :: map dict_to_list cards)).
  { constructor.
    - repeat constructor; (eapply Nat.le_trans; [|exact Hlimit]);
        vm_compute; repeat constructor.
    - apply Forall_map. eapply Forall_impl; [|exact Hcards]. intros c Hc.
      eapply Forall_impl; [|exact Hc]. intros f [_ Hf]. exact Hf. }
  destruct (write_csv_ok cards w Hw Hs) as (bytes & Hwr & _ & Hdec).
  exists bytes, (csv_text cards). split; [exact Hwr|]. split; [exact Hdec|].
  split; [|apply length_map].
  rewrite csv_text_rows. apply (reader_roundtrip limit _ Hl).
Qed.

(** An instance of [csv_round_trip]. *)
Lemma csv_round_trip_witness :
  exists bytes text,
    write_csv sample_cards world_all
    = (Ok tt, World (existing world_all) (output_writable world_all)
                    (Some bytes) (stdout world_all))
    /\ Utf8.decode bytes = Some text
    /\ Csv.reader 200 text
       = Some ([lit "type"; lit "front"; lit "back"; lit "section";
                lit "approved"]
               :: map (fun c => [type c; front c; back c; section c;
                                 approved c]) sample_cards)
    /\ length (map (fun c => [type c; front c; back c; section c;
                              approved c]) sample_cards) = length sample_cards.
Proof.
  apply (csv_round_trip sample_cards world_all 200).
  - reflexivity.
  - apply cards_fit_spec. vm_compute. reflexivity.
  - apply Nat.leb_le. reflexivity.
Defined.

(** ** Executable forms of the conditions on text *)

Lemma scalar_texts_spec (l : list str) :
  forallb (forallb Utf8.scalar) l = true ->
  Forall (Forall (fun c => Utf8.scalar c = true)) l.
Proof.
  intros H. apply Forall_forall. intros s Hs. apply Forall_forall.
  intros c Hc. rewrite forallb_forall in H. specialize (H s Hs).
  rewrite forallb_forall in H. now apply H.
Qed.

Lemma scalar_cards_spec (cards : list card) :
  forallb (fun k => forallb (forallb Utf8.scalar)
                            [type k; front k; back k; section k; approved k])
          cards = true ->
  Forall (fun k => Forall (fun g => Forall (fun x => Utf8.scalar x = true) g)
                          [type k; front k; back k; section k; approved k])
         cards.
Proof.
  intros H. apply Forall_forall. intros k Hk.
  rewrite forallb_forall in H. apply scalar_texts_spec. now apply H.
Qed.

(** ** The matcher: what a result tells *)

Lemma extends_refl (ids : list nat) (g : Re.groups) : extends ids g g.
Proof. exists []. split; [reflexivity | constructor]. Qed.

Lemma extends_trans (ids1 ids2 ids : list nat) (g g1 g2 : Re.groups) :
  incl ids1 ids -> incl ids2 ids ->
  extends ids1 g g1 -> extends ids2 g1 g2 -> extends ids g g2.
Proof.
  intros H1 H2 (n1 & -> & F1) (n2 & -> & F2). exists (n2 ++ n1).
  split; [now rewrite app_assoc|]. apply Forall_app. split.
  - eapply Forall_impl; [|exact F2]. intros e He. now apply H2.
  - eapply Forall_impl; [|exact F1]. intros e He. now apply H1.
Qed.

Lemma extends_none (g g' : Re.groups) : extends [] g g' -> g' = g.
Proof.
  intros (new & -> & F). destruct new as [|e new]; [reflexivity|].
  inversion F as [|? ? He _]; subst. destruct He.
Qed.

(** A result of the search comes from a match of the pattern followed by
    a success of what was left to do. *)
Lemma run_sound (r : Re.regex) :
  forall (s : str) (g : Re.groups) (k : Re.cont) (res : Re.groups),
    Re.run r s g k = Some res ->
    exists s' g', matches r s s' /\ extends (group_ids r) g g'
                  /\ k s' g' = Some res.
Proof.
  induction r as [p | r1 IH1 r2 IH2 | r1 IH1 | i r1 IH1]; intros s g k res H.
  - destruct s as [|c s]; [discriminate|]. rewrite run_class in H.
    destruct (p c) eqn:E; [|discriminate].
    exists s, g. split; [now apply M_class|]. split; [apply extends_refl | exact H].
  - rewrite run_cat in H.
    apply IH1 in H as (s1 & g1 & M1 & E1 & H).
    apply IH2 in H as (s2 & g2 & M2 & E2 & H).
    exists s2, g2. split; [eapply M_cat; eauto|]. split; [|exact H].
    cbn [group_ids].
    eapply extends_trans; [| |exact E1|exact E2];
      [apply incl_appl | apply incl_appr]; apply incl_refl.
  - rewrite run_star in H. cbn [group_ids].
    remember (S (length s)) as n eqn:En. clear En.
    revert s g H. induction n as [|n IHn]; intros s g H.
    + exists s, g. split; [apply M_star_stop|].
      split; [apply extends_refl | exact H].
    + rewrite star_loop_S in H.
      destruct (Re.run r1 s g _) as [r|] eqn:E.
      * injection H as ->.
        apply IH1 in E as (s1 & g1 & M1 & E1 & E).
        destruct (length s1 <? length s) eqn:L; [|discriminate].
        apply Nat.ltb_lt in L.
        apply IHn in E as (s2 & g2 & M2 & E2 & E).
        exists s2, g2. split; [eapply M_star_more; eauto|]. split; [|exact E].
        eapply extends_trans; [| |exact E1|exact E2]; apply incl_refl.
      * exists s, g. split; [apply M_star_stop|].
        split; [apply extends_refl | exact H].
  - rewrite run_group in H.
    apply IH1 in H as (s' & g' & M & E & H).
    exists s', ((i, firstn (length s - length s') s) :: g').
    split; [now apply M_group|]. split; [|exact H].
    destruct E as (new & -> & F).
    exists ((i, firstn (length s - length s') s) :: new). split; [reflexivity|].
    constructor; [now left|].
    eapply Forall_impl; [|exact F]. intros e He. now right.
Qed.

Lemma matches_consumed (r : Re.regex) (s s' : str) :
  matches r s s' -> exists u, s = u ++ s'.
Proof.
  induction 1 as [p c s Hp | r1 r2 s s1 s2 _ [u1 ->] _ [u2 ->] | r s
                 | r s s1 s2 _ [u1 ->] _ _ [u2 ->] | i r s s' _ IH].
  - now exists [c].
  - exists (u1 ++ u2). now rewrite app_assoc.
  - now exists [].
  - exists (u1 ++ u2). now rewrite app_assoc.
  - exact IH.
Qed.

Lemma matches_class_inv (p : char -> bool) (s s' : str) :
  matches (Re.Class p) s s' -> exists c, p c = true /\ s = c :: s'.
Proof. inversion 1; subst. eauto. Qed.

Lemma matches_star_class_inv (p : char -> bool) (s s' : str) :
  matches (Re.Star (Re.Class p)) s s' ->
  exists u, Forall (fun c => p c = true) u /\ s = u ++ s'.
Proof.
  intros H. remember (Re.Star (Re.Class p)) as r eqn:Er.
  induction H as [| | r s | r s s1 s2 M1 _ _ _ IH |]; try discriminate.
  - exists []. split; [constructor | reflexivity].
  - injection Er as ->. destruct (IH eq_refl) as (u & Hu & ->).
    apply matches_class_inv in M1 as (c & Hc & ->).
    exists (c :: u). split; [now constructor | reflexivity].
Qed.

Lemma matches_plus_class_inv (p : char -> bool) (s s' : str) :
  matches (Re.Plus (Re.Class p)) s s' ->
  exists u, u <> [] /\ Forall (fun c => p c = true) u /\ s = u ++ s'.
Proof.
  unfold Re.Plus. inversion 1 as [|? ? ? s1 ? M1 M2| | |]; subst.
  apply matches_class_inv in M1 as (c & Hc & ->).
  apply matches_star_class_inv in M2 as (u & Hu & ->).
  exists (c :: u). split; [discriminate|]. split; [now constructor | reflexivity].
Qed.

Lemma matches_G2_inv (s s' : str) :
  matches G2 s s' -> exists d, is_integer d /\ s = 46%Z :: d ++ s'.
Proof.
  unfold G2. inversion 1 as [| | | |? ? ? ? M]; subst.
  inversion M as [|? ? ? s1 ? M1 M2| | |]; subst.
  apply matches_class_inv in M1 as (c & Hc & ->).
  apply matches_plus_class_inv in M2 as (d & Hne & Hd & ->).
  apply Z.eqb_eq in Hc as <-. exists d. split; [now split | reflexivity].
Qed.

Lemma matches_star_G2_inv (s s' : str) :
  matches (Re.Star G2) s s' ->
  exists ints, Forall is_integer ints /\ s = dotted_groups ints ++ s'.
Proof.
  intros H. remember (Re.Star G2) as r eqn:Er.
  induction H as [| | r s | r s s1 s2 M1 _ _ _ IH |]; try discriminate.
  - exists []. split; [constructor | reflexivity].
  - injection Er as ->. destruct (IH eq_refl) as (ints & Hi & ->).
    apply matches_G2_inv in M1 as (d & Hd & ->).
    exists (d :: ints). split; [now constructor|].
    cbn [dotted_groups flat_map app]. now rewrite <- app_assoc.
Qed.

(** What a match of [SECTION_REGEX] captured: group 1 is a dotted number
    at the start of the paragraph, a period and white space follow, and
    group 3 is a non-empty piece of one line right after them. *)
Lemma section_regex_sound (p : str) (m : Re.groups) :
  Re.match_ SECTION_REGEX p = Some m ->
  exists d0 ints ws label rest,
    is_integer d0 /\ Forall is_integer ints
    /\ Forall (fun c => Unicode.isspace c = true) ws
    /\ label <> [] /\ Forall (fun c => c <> Unicode.LF) label
    /\ p = (d0 ++ dotted_groups ints) ++ 46%Z :: ws ++ label ++ rest
    /\ Re.group m 1 = Some (d0 ++ dotted_groups ints)
    /\ Re.group m 3 = Some label.
Proof.
  unfold Re.match_, SECTION_REGEX. fold LABEL. fold G2.
  rewrite run_cat, run_group. intros H.
  apply run_sound in H as (s1 & g1 & M1 & _ & H).
  inversion M1 as [|? ? ? sa ? Ma Mb| | |]; subst.
  apply matches_plus_class_inv in Ma as (d0 & Hne0 & Hd0 & ->).
  apply matches_star_G2_inv in Mb as (ints & Hints & ->).
  unfold LABEL in H. rewrite run_cat in H. unfold Re.period at 1 in H.
  destruct s1 as [|c s2]; [discriminate|]. rewrite run_class in H.
  destruct (Z.eqb_spec 46 c) as [<-|]; [|discriminate].
  rewrite run_cat in H.
  apply run_sound in H as (s3 & g3 & M3 & E3 & H).
  apply extends_none in E3 as ->.
  apply matches_star_class_inv in M3 as (ws & Hws & ->).
  rewrite run_group in H.
  apply run_sound in H as (s4 & g4 & M4 & E4 & H).
  apply extends_none in E4 as ->.
  apply matches_plus_class_inv in M4 as (label & Hl & Hlf & ->).
  injection H as <-.
  exists d0, ints, ws, label, s4. split; [now split|]. split; [exact Hints|].
  split; [exact Hws|]. split; [exact Hl|]. split.
  { eapply Forall_impl; [|exact Hlf]. simpl. intros c Hc.
    now apply negb_true_iff, Z.eqb_neq in Hc. }
  split; [now rewrite <- !app_assoc|]. split.
  - cbn [Re.group Nat.eqb]. f_equal.
    apply (firstn_consumed (d0 ++ dotted_groups ints) (46%Z :: ws ++ label ++ s4)).
    now rewrite <- !app_assoc.
  - cbn [Re.group Nat.eqb]. f_equal.
    now apply (firstn_consumed label s4).
Qed.

Lemma decimal_not_LF (c : char) : Unicode.isdecimal c = true -> c <> Unicode.LF.
Proof. intros H ->. discriminate. Qed.

(** X1. A paragraph is a heading exactly when it is made of one or more
    decimal digits, a period, optional white space and at least one more
    character that is not a line feed. *)
Theorem heading_iff (p : str) :
  is_heading p = true
  <-> exists ds ws c rest,
        is_integer ds /\ Forall (fun x => Unicode.isspace x = true) ws
        /\ c <> Unicode.LF /\ p = ds ++ lit "." ++ ws ++ c :: rest.
Proof.
  split.
  - unfold is_heading. destruct (Re.match_ SECTION_REGEX p) as [m|] eqn:E;
      [intros _ | discriminate].
    apply section_regex_sound in E
      as (d0 & ints & ws & label & rest & Hd0 & Hints & Hws & Hl & Hlf & -> & _).
    destruct ints as [|d1 ints].
    + destruct label as [|c label]; [congruence|].
      inversion Hlf; subst.
      exists d0, ws, c, (label ++ rest). repeat split; auto; try apply Hd0.
      cbn [dotted_groups flat_map]. rewrite app_nil_r. reflexivity.
    + inversion Hints as [|? ? [Hne1 Hd1] _]; subst.
      destruct d1 as [|c d1]; [congruence|]. inversion Hd1; subst.
      exists d0, [], c, (d1 ++ dotted_groups ints ++ 46%Z :: ws ++ label ++ rest).
      repeat split; auto; try apply Hd0.
      * now apply decimal_not_LF.
      * change (lit ".") with [46%Z]. cbn [dotted_groups flat_map].
        fold (dotted_groups ints).
        repeat (rewrite <- app_assoc || (progress (cbn [app]))). reflexivity.
  - intros (ds & ws & c & rest & [Hne Hds] & Hws & Hc & ->).
    unfold is_heading.
    destruct (Re.match_ SECTION_REGEX (ds ++ lit "." ++ ws ++ c :: rest)) eqn:E;
      [reflexivity|].
    exfalso. revert E. apply (match_complete _ _ rest).
    unfold SECTION_REGEX.
    apply (M_cat _ _ _ (lit "." ++ ws ++ c :: rest)).
    + apply M_group. apply (M_cat _ _ _ (lit "." ++ ws ++ c :: rest)).
      * now apply matches_plus_class.
      * apply M_star_stop.
    + apply (M_cat _ _ _ (ws ++ c :: rest)); [now apply M_class|].
      apply (M_cat _ _ _ (c :: rest)); [now apply matches_star_class|].
      apply M_group. apply (M_cat _ _ _ rest); [|apply M_star_stop].
      apply M_class. apply negb_true_iff, Z.eqb_neq. exact Hc.
Qed.

(** An instance of [heading_iff]. *)
Lemma heading_iff_witness :
  exists ds ws c rest,
    is_integer ds /\ Forall (fun x => Unicode.isspace x = true) ws
    /\ c <> Unicode.LF /\ lit "3. Resultats" = ds ++ lit "." ++ ws ++ c :: rest.
Proof.
  apply (proj1 (heading_iff (lit "3. Resultats"))). vm_compute. reflexivity.
Defined.

Lemma dotted_no_LF (ints : list str) :
  Forall is_integer ints -> Forall (fun c => c <> Unicode.LF) (dotted_groups ints).
Proof.
  induction 1 as [|d ints [_ Hd] _ IH]; [constructor|].
  cbn [dotted_groups flat_map]. constructor; [discriminate|].
  apply Forall_app. split; [|exact IH].
  eapply Forall_impl; [|exact Hd]. intros c Hc. now apply decimal_not_LF.
Qed.

Lemma heading_label_sound (p label : str) :
  heading_label p = Some label ->
  exists d0 ints ws text rest,
    is_integer d0 /\ Forall is_integer ints
    /\ Forall (fun c => Unicode.isspace c = true) ws
    /\ text <> [] /\ Forall (fun c => c <> Unicode.LF) text
    /\ p = (d0 ++ dotted_groups ints) ++ 46%Z :: ws ++ text ++ rest
    /\ label = (d0 ++ dotted_groups ints) ++ 32%Z :: text.
Proof.
  unfold heading_label. destruct (Re.match_ SECTION_REGEX p) as [m|] eqn:E;
    [|discriminate].
  apply section_regex_sound in E
    as (d0 & ints & ws & text & rest & Hd0 & Hints & Hws & Hl & Hlf & -> & -> & ->).
  intros H. injection H as <-.
  exists d0, ints, ws, text, rest. repeat split; auto; apply Hd0.
Qed.

(** X2. The label that a heading sets is a dotted number at the start of
    the paragraph, one space, and a non-empty piece of the paragraph that
    follows the number, a period and white space; the label fits on one
    line, and the fallback text of a missing group never shows in it. *)
Theorem heading_label_shape (p label : str) :
  heading_label p = Some label ->
  exists ints ws text rest,
    ints <> [] /\ Forall is_integer ints
    /\ Forall (fun c => Unicode.isspace c = true) ws
    /\ text <> [] /\ Forall (fun c => c <> Unicode.LF) text
    /\ p = PyStr.join (lit ".") ints ++ lit "." ++ ws ++ text ++ rest
    /\ label = PyStr.join (lit ".") ints ++ lit " " ++ text
    /\ Forall (fun c => c <> Unicode.LF) label.
Proof.
  intros H. apply heading_label_sound in H
    as (d0 & ints & ws & text & rest & Hd0 & Hints & Hws & Hl & Hlf & -> & ->).
  exists (d0 :: ints), ws, text, rest. rewrite join_dotted.
  split; [discriminate|]. split; [now constructor|]. split; [exact Hws|].
  split; [exact Hl|]. split; [exact Hlf|]. split; [reflexivity|].
  split; [reflexivity|].
  apply Forall_app. split.
  - apply Forall_app. split; [|now apply dotted_no_LF].
    destruct Hd0 as [_ Hd0]. eapply Forall_impl; [|exact Hd0].
    intros c Hc. now apply decimal_not_LF.
  - constructor; [discriminate | exact Hlf].
Qed.

(** An instance of [heading_label_shape]. *)
Lemma heading_label_shape_witness :
  exists ints ws text rest,
    ints <> [] /\ Forall is_integer ints
    /\ Forall (fun c => Unicode.isspace c = true) ws
    /\ text <> [] /\ Forall (fun c => c <> Unicode.LF) text
    /\ lit "2.1. Mètodes" = PyStr.join (lit ".") ints ++ lit "." ++ ws ++ text ++ rest
    /\ lit "2.1 Mètodes" = PyStr.join (lit ".") ints ++ lit " " ++ text
    /\ Forall (fun c => c <> Unicode.LF) (lit "2.1 Mètodes").
Proof.
  apply (heading_label_shape (lit "2.1. Mètodes") (lit "2.1 Mètodes")).
  vm_compute. reflexivity.
Defined.

(** X3. When no paragraph is a heading, every paragraph comes back as a
    sentence of the section General, in order. *)
Theorem no_heading_all_general (paragraphs : list str) :
  Forall (fun q => is_heading q = false) paragraphs ->
  detect_sections paragraphs = map (pair (lit "General")) paragraphs.
Proof.
  intros H. rewrite detect_sections_tagged.
  rewrite <- (app_nil_r paragraphs) at 1.
  rewrite (tagged_run _ _ [] H). apply app_nil_r.
Qed.

(** An instance of [no_heading_all_general]. *)
Lemma no_heading_all_general_witness :
  detect_sections [lit "Primera frase."; lit "2 de maig"]
  = [(lit "General", lit "Primera frase."); (lit "General", lit "2 de maig")].
Proof.
  apply (no_heading_all_general [lit "Primera frase."; lit "2 de maig"]).
  constructor; [vm_compute; reflexivity|].
  constructor; [vm_compute; reflexivity|]. constructor.
Defined.

(** X4. A heading cuts the document in two parts that are sectioned
    independently: what comes before it does not change the pairs that
    follow it. *)
Theorem sections_restart_at_heading (before after : list str) (h : str) :
  is_heading h = true ->
  detect_sections (before ++ h :: after)
  = detect_sections before ++ detect_sections (h :: after).
Proof.
  intros Hh. apply heading_label_some in Hh as [label Hl].
  rewrite !detect_sections_tagged.
  destruct (tagged_app (lit "General") before (h :: after)) as (cur & -> & _).
  cbn [tagged]. now rewrite Hl.
Qed.

(** An instance of [sections_restart_at_heading]. *)
Lemma sections_restart_at_heading_witness :
  detect_sections ([lit "Apunts"] ++ lit "1. Enzims" :: [lit "Són proteïnes."])
  = detect_sections [lit "Apunts"]
    ++ detect_sections (lit "1. Enzims" :: [lit "Són proteïnes."]).
Proof.
  apply (sections_restart_at_heading [lit "Apunts"] [lit "Són proteïnes."]
           (lit "1. Enzims")).
  vm_compute. reflexivity.
Defined.

Lemma tagged_label_origin (cur : str) (paragraphs : list str) (l s : str) :
  In (l, s) (tagged cur paragraphs) ->
  l = cur \/ exists h, In h paragraphs /\ heading_label h = Some l.
Proof.
  revert cur. induction paragraphs as [|q ps IH]; intros cur Hin; [destruct Hin|].
  cbn [tagged] in Hin. destruct (heading_label q) as [l'|] eqn:E.
  - destruct (IH l' Hin) as [-> | (h & Hh & Hl)].
    + right. exists q. split; [now left | exact E].
    + right. exists h. split; [now right | exact Hl].
  - destruct Hin as [Hin | Hin].
    + left. now injection Hin.
    + destruct (IH cur Hin) as [Hl | (h & Hh & Hl)]; [now left|].
      right. exists h. split; [now right | exact Hl].
Qed.

(** X5. Cards are made from sentences only: every card of the pipeline
    comes from a paragraph that is not a heading, and its section is
    General or the label of a heading of the document. *)
Theorem cards_from_sentences (paragraphs : list str) :
  exists cards,
    generate_cards (detect_sections paragraphs) = Ok cards
    /\ Forall (fun c =>
                 (exists p part,
                     In p paragraphs /\ is_heading p = false
                     /\ generate_cards [(section c, p)] = Ok part /\ In c part)
                 /\ (section c = lit "General"
                     \/ exists h, In h paragraphs
                                  /\ heading_label h = Some (section c)))
              cards.
Proof.
  exists (flat_map emitted (detect_sections paragraphs)).
  split; [apply generate_cards_spec|].
  apply Forall_forall. intros c Hc.
  apply in_flat_map in Hc as ([sec sentence] & Hin & Hc).
  assert (Hsec : section c = sec).
  { destruct (emitted_cases sec sentence) as (bs & cs & E & Hb & Hcl).
    rewrite E in Hc. apply in_app_or in Hc as [Hc | Hc].
    - destruct Hb as [[-> _] | [-> _]]; [destruct Hc|].
      now destruct Hc as [<- | []].
    - destruct Hcl as [[-> _] | (w & -> & _)]; [destruct Hc|].
      now destruct Hc as [<- | []]. }
  subst sec. rewrite detect_sections_tagged in Hin.
  assert (Hf : In sentence (filter sentence_of paragraphs)).
  { rewrite <- (tagged_sentences (lit "General")).
    apply (in_map snd) in Hin. exact Hin. }
  apply filter_In in Hf as [Hp Hs]. split.
  - exists sentence, (emitted (section c, sentence)).
    split; [exact Hp|]. split.
    + unfold sentence_of in Hs. now destruct (is_heading sentence).
    + split; [apply generate_cards_one | exact Hc].
  - now apply tagged_label_origin in Hin.
Qed.

(** ** Further properties of the card generator *)

(** X6. The generator never raises, and the cards of two texts put one
    after the other are the cards of the first followed by the cards of
    the second. *)
Theorem generate_cards_app (a b : list (str * str)) :
  exists ca cb,
    generate_cards a = Ok ca /\ generate_cards b = Ok cb
    /\ generate_cards (a ++ b) = Ok (ca ++ cb).
Proof.
  exists (flat_map emitted a), (flat_map emitted b).
  rewrite !generate_cards_spec. now rewrite flat_map_app.
Qed.

(** X7. A sentence of at most 8 words gives no card at all. *)
Theorem short_sentence_no_card (sec sentence : str) :
  length (PyStr.split sentence) <= 8 ->
  generate_cards [(sec, sentence)] = Ok [].
Proof.
  intros H. rewrite generate_cards_one. f_equal.
  destruct (emitted_cases sec sentence) as (bs & cs & -> & Hb & Hc).
  destruct Hb as [[-> _] | [_ [_ Hd]]]; [|lia].
  destruct Hc as [[-> _] | (w & _ & [H10 _] & _)]; [reflexivity | lia].
Qed.

(** An instance of [short_sentence_no_card]. *)
Lemma short_sentence_no_card_witness :
  generate_cards [(lit "General", lit "La cèl·lula és la unitat de la vida.")]
  = Ok [].
Proof.
  apply (short_sentence_no_card (lit "General")
           (lit "La cèl·lula és la unitat de la vida.")).
  vm_compute. repeat constructor.
Defined.

Lemma split_from_app_space (p : str) (c : char) :
  Unicode.isspace c = true ->
  forall cur t,
    PyStr.split_from cur ((p ++ [c]) ++ t)
    = PyStr.split_from cur (p ++ [c]) ++ PyStr.split_from [] t.
Proof.
  intros Hc. induction p as [|x p IH]; intros cur t.
  - cbn [app PyStr.split_from]. rewrite Hc. destruct cur; reflexivity.
  - cbn [app PyStr.split_from]. destruct (Unicode.isspace x).
    + destruct cur; [apply IH|]. cbn [app]. f_equal. apply IH.
    + apply IH.
Qed.

Lemma split_app_before (pre t : str) :
  space_before pre ->
  PyStr.split (pre ++ t) = PyStr.split pre ++ PyStr.split t.
Proof.
  intros [-> | (p & c & -> & Hc)]; [reflexivity|].
  now apply split_from_app_space.
Qed.

Lemma split_word_first (u post : str) :
  u <> [] -> no_space u -> space_after post ->
  PyStr.split (u ++ post) = u :: PyStr.split post.
Proof.
  intros Hne Hu Hp. unfold PyStr.split. rewrite split_from_run by exact Hu.
  cbn [app]. destruct post as [|c post].
  - destruct u; [congruence | reflexivity].
  - simpl in Hp. cbn [PyStr.split_from]. rewrite Hp.
    destruct u; [congruence | reflexivity].
Qed.

(** The words around a whole word. *)
Lemma split_around (pre u post : str) :
  u <> [] -> no_space u -> space_before pre -> space_after post ->
  PyStr.split (pre ++ u ++ post) = PyStr.split pre ++ u :: PyStr.split post.
Proof.
  intros Hne Hu Hp Hq. rewrite split_app_before by exact Hp.
  now rewrite split_word_first.
Qed.

Lemma marker_no_space (w : str) :
  no_space w -> no_space (lit "{{c1::" ++ w ++ lit "}}").
Proof.
  intros Hw. apply Forall_app. split; [repeat constructor|].
  apply Forall_app. split; [exact Hw | repeat constructor].
Qed.

Lemma split_position (w : str) (l1 l2 r1 r2 : list str) :
  l1 ++ w :: l2 = r1 ++ w :: r2 -> ~ In w l1 -> ~ In w r1 ->
  l1 = r1 /\ l2 = r2.
Proof.
  revert r1. induction l1 as [|x l1 IH]; intros [|y r1] E H1 H2.
  - injection E as <-. now split.
  - injection E as <- _. exfalso. apply H2. now left.
  - injection E as -> _. exfalso. apply H1. now left.
  - injection E as <- E. destruct (IH r1 E) as [-> ->].
    + intros Hin. apply H1. now right.
    + intros Hin. apply H2. now right.
    + now split.
Qed.

(** X8. The front of a cloze card has the words of the sentence, in
    order, with the first of the longest words, and only that one,
    replaced by its cloze marker. *)
Theorem cloze_front_words (sentence text : str) :
  generate_cloze sentence = Ok (Some text) ->
  exists l1 w l2,
    PyStr.split sentence = l1 ++ w :: l2
    /\ Forall (fun x => length x < length w) l1
    /\ Forall (fun x => length x <= length w) l2
    /\ PyStr.split text = l1 ++ (lit "{{c1::" ++ w ++ lit "}}") :: l2.
Proof.
  intros H.
  destruct (generate_cloze_spec sentence) as [[E _] | (w & E & _ & Hl & _)];
    [congruence|].
  destruct (cloze_replaced sentence w Hl) as (pre & post & Hs & Hout & Hmin).
  assert (Ht : text = pre ++ (lit "{{c1::" ++ w ++ lit "}}") ++ post)
    by (rewrite <- Hout; congruence).
  subst text.
  destruct (longest_whole_word sentence pre w post Hl Hs) as [Hp Hq].
  pose proof (first_longest_in _ _ Hl) as Hin.
  assert (Hne : w <> []) by (eapply split_from_nonempty; exact Hin).
  assert (Hw : no_space w).
  { eapply (split_from_words sentence []); [constructor | exact Hin]. }
  pose proof (split_around pre w post Hne Hw Hp Hq) as Hsplit.
  rewrite <- Hs in Hsplit.
  destruct Hl as (l1 & l2 & El & H1 & H2).
  assert (Hpos : l1 = PyStr.split pre /\ l2 = PyStr.split post).
  { apply (split_position w); [congruence | |].
    - intros Hi. rewrite Forall_forall in H1. specialize (H1 _ Hi). lia.
    - intros Hi. apply split_occurs in Hi as (a & b & Ea).
      specialize (Hmin a (b ++ w ++ post)).
      assert (length pre <= length a) as Hle.
      { apply Hmin. rewrite Hs, Ea. now rewrite <- !app_assoc. }
      rewrite Ea, !length_app in Hle. destruct w; [congruence|].
      simpl in Hle. lia. }
  destruct Hpos as [-> ->].
  exists (PyStr.split pre), w, (PyStr.split post).
  split; [exact El|]. split; [exact H1|]. split; [exact H2|].
  apply split_around; auto.
  - apply marker_nonempty.
  - now apply marker_no_space.
Qed.

(** An instance of [cloze_front_words]. *)
Lemma cloze_front_words_witness :
  exists l1 w l2,
    PyStr.split sample_sentence = l1 ++ w :: l2
    /\ Forall (fun x => length x < length w) l1
    /\ Forall (fun x => length x <= length w) l2
    /\ PyStr.split
         (lit "La fotosíntesi és el procés pel qual les plantes {{c1::converteixen}} llum en energia química.")
       = l1 ++ (lit "{{c1::" ++ w ++ lit "}}") :: l2.
Proof.
  apply (cloze_front_words sample_sentence
           (lit "La fotosíntesi és el procés pel qual les plantes {{c1::converteixen}} llum en energia química.")).
  vm_compute. reflexivity.
Defined.

(** ** The extractors *)

Lemma lstrip_spec (s : str) :
  exists sp, s = sp ++ PyStr.lstrip s
    /\ Forall (fun c => Unicode.isspace c = true) sp
    /\ not_at Unicode.isspace (PyStr.lstrip s).
Proof.
  induction s as [|c s (sp & E & Hsp & Hn)].
  - exists []. repeat split. constructor.
  - cbn [PyStr.lstrip]. destruct (Unicode.isspace c) eqn:Ec.
    + exists (c :: sp). split; [simpl; now rewrite <- E|].
      split; [now constructor | exact Hn].
    + exists []. split; [reflexivity|]. split; [constructor | exact Ec].
Qed.

(** Stripping removes white space at both ends and nothing else. *)
Lemma strip_spec (s : str) :
  exists sp1 sp2,
    s = sp1 ++ PyStr.strip s ++ sp2
    /\ Forall (fun c => Unicode.isspace c = true) sp1
    /\ Forall (fun c => Unicode.isspace c = true) sp2
    /\ not_at Unicode.isspace (PyStr.strip s)
    /\ not_at Unicode.isspace (rev (PyStr.strip s)).
Proof.
  unfold PyStr.strip.
  destruct (lstrip_spec s) as (sp1 & E1 & H1 & N1).
  destruct (lstrip_spec (rev (PyStr.lstrip s))) as (sp2 & E2 & H2 & N2).
  set (t := PyStr.lstrip s) in *. set (u := PyStr.lstrip (rev t)) in *.
  assert (Et : t = rev u ++ rev sp2).
  { rewrite <- rev_app_distr, <- E2. now rewrite rev_involutive. }
  exists sp1, (rev sp2). split; [now rewrite <- Et|]. split; [exact H1|].
  split; [now apply Forall_rev|]. split; [|now rewrite rev_involutive].
  destruct (rev u) as [|x r] eqn:Er; [exact I|].
  rewrite Et in N1. exact N1.
Qed.

Lemma strip_blank (t : str) :
  PyStr.truthy (PyStr.strip t) = has_text t.
Proof.
  destruct (strip_spec t) as (sp1 & sp2 & E & H1 & H2 & N & _).
  unfold has_text. destruct (PyStr.strip t) as [|c r] eqn:Es.
  - simpl. symmetry. apply not_true_is_false. intros Hx.
    apply existsb_exists in Hx as (x & Hin & Hx).
    rewrite E in Hin. simpl in Hin. apply in_app_or in Hin.
    assert (Unicode.isspace x = true).
    { destruct Hin as [Hin | Hin];
        [rewrite Forall_forall in H1 | rewrite Forall_forall in H2]; auto. }
    rewrite H in Hx. discriminate.
  - simpl. symmetry. apply existsb_exists. exists c. split.
    + rewrite E. apply in_or_app. right. now left.
    + simpl in N. now rewrite N.
Qed.

Lemma strip_trimmed (t : str) :
  PyStr.truthy (PyStr.strip t) = true -> trimmed (PyStr.strip t).
Proof.
  intros H. destruct (strip_spec t) as (_ & _ & _ & _ & _ & N1 & N2).
  split; [|now split]. intros E. rewrite E in H. discriminate.
Qed.

(** X9. When the DOCX library gives the paragraphs [texts], the extractor
    gives, in order, the stripped form of those that are not blank: each
    line is non-empty and has no white space at either end. An error of
    the library is passed on. *)
Theorem extract_docx_lines (docx_paragraphs : str -> result (list str))
    (path : str) :
  (forall texts, docx_paragraphs path = Ok texts ->
     extract_docx docx_paragraphs path
     = Ok (map PyStr.strip (filter has_text texts))
     /\ Forall trimmed (map PyStr.strip (filter has_text texts)))
  /\ (forall e, docx_paragraphs path = Raise e ->
        extract_docx docx_paragraphs path = Raise e).
Proof.
  split.
  - intros texts H. unfold extract_docx. rewrite H. cbn [bind].
    assert (E : filter (fun t => PyStr.truthy (PyStr.strip t)) texts
                = filter has_text texts).
    { apply filter_ext. intros t. apply strip_blank. }
    rewrite E. split; [reflexivity|].
    apply Forall_map, Forall_forall. intros t Ht.
    apply filter_In in Ht as [_ Ht]. apply strip_trimmed.
    now rewrite strip_blank.
  - intros e H. unfold extract_docx. now rewrite H.
Qed.

(** An instance of [extract_docx_lines]. *)
Lemma extract_docx_lines_witness :
  extract_docx sample_docx (lit "apunts.docx")
  = Ok [lit "1. Fotosíntesi"; sample_sentence]
  /\ Forall trimmed [lit "1. Fotosíntesi"; sample_sentence].
Proof.
  apply (proj1 (extract_docx_lines sample_docx (lit "apunts.docx"))
           [ lit "  1. Fotosíntesi "; lit "   "; sample_sentence ]).
  reflexivity.
Defined.

Lemma split_on_no_sep (d : char) (s cur piece : str) :
  In piece (PyStr.split_on d cur s) ->
  Forall (fun c => c <> d) cur -> Forall (fun c => c <> d) piece.
Proof.
  revert cur. induction s as [|c s IH]; intros cur H Hcur.
  - cbn [PyStr.split_on] in H. now destruct H as [<- | []].
  - cbn [PyStr.split_on] in H. destruct (Z.eqb_spec c d) as [->|Hc].
    + destruct H as [<- | H]; [exact Hcur|]. apply (IH [] H). constructor.
    + apply (IH (cur ++ [c]) H). apply Forall_app. split; [exact Hcur|].
      now repeat constructor.
Qed.

Lemma split_on_occurs (d : char) (s cur piece : str) :
  In piece (PyStr.split_on d cur s) ->
  (exists b, cur ++ s = piece ++ b) \/ (exists a b, s = a ++ piece ++ b).
Proof.
  revert cur. induction s as [|c s IH]; intros cur H.
  - cbn [PyStr.split_on] in H. destruct H as [<- | []].
    left. now exists [].
  - cbn [PyStr.split_on] in H. destruct (c =? d)%Z.
    + destruct H as [<- | H]; [left; now exists (c :: s)|].
      right. destruct (IH [] H) as [[b Hb] | (a & b & Hb)].
      * exists [c], b. simpl in *. now rewrite Hb.
      * exists (c :: a), b. simpl. now rewrite Hb.
    + destruct (IH (cur ++ [c]) H) as [[b Hb] | (a & b & Hb)].
      * left. exists b. rewrite <- Hb, <- app_assoc. reflexivity.
      * right. exists (c :: a), b. simpl. now rewrite Hb.
Qed.

(** X10. When the PDF library gives the page texts [pages], every line the
    extractor returns is non-empty, has no white space at either end and
    no line feed, and is a piece of the text of a page; pages without text
    add nothing, and an error of the library is passed on. *)
Theorem extract_pdf_lines (pdf_pages : str -> result (list (option str)))
    (path : str) :
  (forall pages, pdf_pages path = Ok pages ->
     exists lines,
       extract_pdf pdf_pages path = Ok lines
       /\ Forall (fun l =>
                    trimmed l /\ Forall (fun c => c <> Unicode.LF) l
                    /\ exists text a b, In (Some text) pages
                                        /\ text = a ++ l ++ b)
                 lines
       /\ (Forall (fun page => page = None \/ page = Some []) pages ->
           lines = []))
  /\ (forall e, pdf_pages path = Raise e ->
        extract_pdf pdf_pages path = Raise e).
Proof.
  split.
  - intros pages H. unfold extract_pdf. rewrite H. cbn [bind].
    exists (flat_map lines_of_page pages). split; [reflexivity|].
    clear H. split.
    + apply Forall_forall. intros l Hl.
      apply in_flat_map in Hl as (page & Hpage & Hl).
      destruct page as [text|]; [|destruct Hl].
      destruct text as [|c0 text0]; [destruct Hl|].
      cbn [lines_of_page] in Hl. apply filter_In in Hl as [Hl Ht].
      apply in_map_iff in Hl as (piece & <- & Hp).
      destruct (strip_spec piece) as (sp1 & sp2 & Es & _).
      split; [now apply strip_trimmed|]. split.
      * pose proof (split_on_no_sep _ _ _ _ Hp (Forall_nil _)) as Hlf.
        rewrite Es in Hlf. apply Forall_app in Hlf as [_ Hlf].
        now apply Forall_app in Hlf as [Hlf _].
      * exists (c0 :: text0).
        destruct (split_on_occurs _ _ _ _ Hp) as [[b Hb] | (a & b & Hb)].
        -- exists sp1, (sp2 ++ b). split; [exact Hpage|].
           cbn [app] in Hb. rewrite Hb, Es at 1. now rewrite <- !app_assoc.
        -- exists (a ++ sp1), (sp2 ++ b). split; [exact Hpage|].
           rewrite Hb, Es at 1. now rewrite <- !app_assoc.
    + intros Hall. induction Hall as [|page pages Hp _ IH]; [reflexivity|].
      cbn [flat_map]. rewrite IH. destruct Hp as [-> | ->]; reflexivity.
  - intros e H. unfold extract_pdf. now rewrite H.
Qed.

(** An instance of [extract_pdf_lines]. *)
Lemma extract_pdf_lines_witness :
  exists lines,
    extract_pdf sample_pdf (lit "apunts.pdf") = Ok lines
    /\ Forall (fun l =>
                 trimmed l /\ Forall (fun c => c <> Unicode.LF) l
                 /\ exists text a b,
                      In (Some text)
                         [ Some (lit "Apunts " ++ [10%Z] ++ lit "  de biologia");
                           None; Some [] ]
                      /\ text = a ++ l ++ b)
              lines
    /\ (Forall (fun page => page = None \/ page = Some [])
               [ Some (lit "Apunts " ++ [10%Z] ++ lit "  de biologia");
                 None; Some [] ] ->
        lines = []).
Proof.
  apply (proj1 (extract_pdf_lines sample_pdf (lit "apunts.pdf"))).
  reflexivity.
Defined.

(** ** Further properties of the writer *)

Lemma file_write_written (line : str) (w : world) (old : list Z) :
  file_write line (written w old)
  = match Utf8.encode line with
    | Some bs => (Ok tt, written w (old ++ bs))
    | None => (Raise UnicodeEncodeError, written w old)
    end.
Proof. unfold file_write. now destruct (Utf8.encode line). Qed.

(** What [writerows] does to the file does not depend on the rest of the
    world. *)
Lemma writerows_uniform (cards : list card) :
  forall old, exists r bytes,
    forall w, writerows cards (written w old) = (r, written w bytes).
Proof.
  induction cards as [|c cards IH]; intros old.
  - exists (Ok tt), old. reflexivity.
  - destruct (Utf8.encode (Csv.writerow (dict_to_list c))) as [bs|] eqn:E.
    + destruct (IH (old ++ bs)) as (r & bytes & H). exists r, bytes.
      intros w. cbn [writerows]. unfold io_bind.
      now rewrite file_write_written, E, H.
    + exists (Raise UnicodeEncodeError), old. intros w.
      cbn [writerows]. unfold io_bind. now rewrite file_write_written, E.
Qed.

Lemma write_csv_uniform (cards : list card) :
  exists r bytes,
    forall w, output_writable w = true ->
              write_csv cards w = (r, written w bytes).
Proof.
  destruct (Utf8.encode (Csv.writerow fieldnames)) as [bs|] eqn:E.
  - destruct (writerows_uniform cards ([] ++ bs)) as (r & bytes & H).
    exists r, bytes. intros w Hw. unfold write_csv, writeheader, io_bind.
    now rewrite (open_output_ok w Hw), file_write_written, E, H.
  - exists (Raise UnicodeEncodeError), []. intros w Hw.
    unfold write_csv, writeheader, io_bind.
    now rewrite (open_output_ok w Hw), file_write_written, E.
Qed.

(** X11. Writing overwrites: on a file that can be opened, the result and
    the bytes left in the file depend on the cards only, not on what the
    file held before. *)
Theorem write_csv_overwrites (cards : list card) (w : world)
    (old : option (list Z)) :
  output_writable w = true ->
  exists r bytes,
    write_csv cards w
    = (r, World (existing w) (output_writable w) (Some bytes) (stdout w))
    /\ write_csv cards
         (World (existing w) (output_writable w) old (stdout w))
       = (r, World (existing w) (output_writable w) (Some bytes) (stdout w)).
Proof.
  intros Hw. destruct (write_csv_uniform cards) as (r & bytes & H).
  exists r, bytes. split; [now apply H|].
  now rewrite (H (World (existing w) (output_writable w) old (stdout w)) Hw).
Qed.

(** An instance of [write_csv_overwrites]. *)
Lemma write_csv_overwrites_witness :
  exists r bytes,
    write_csv sample_cards world_all
    = (r, World (existing world_all) (output_writable world_all) (Some bytes)
                (stdout world_all))
    /\ write_csv sample_cards
         (World (existing world_all) (output_writable world_all)
                (Some [1; 2; 3]%Z) (stdout world_all))
       = (r, World (existing world_all) (output_writable world_all)
                   (Some bytes) (stdout world_all)).
Proof.
  apply (write_csv_overwrites sample_cards world_all (Some [1; 2; 3]%Z)).
  reflexivity.
Defined.

Lemma encode_char_none (c : char) :
  Utf8.scalar c = false -> Utf8.encode_char c = None.
Proof.
  intros H.
  assert (Hc : (c < 0 \/ 0x110000 <= c \/ 0xD800 <= c <= 0xDFFF)%Z).
  { revert H. unfold Utf8.scalar, Utf8.is_surrogate.
    rewrite !andb_false_iff, negb_false_iff, andb_true_iff.
    rewrite Z.leb_gt, Z.ltb_ge, !Z.leb_le. lia. }
  clear H. unfold Utf8.encode_char, Utf8.is_surrogate.
  repeat (match goal with
          | |- context [Z.leb ?a ?b] => destruct (Z.leb_spec a b)
          | |- context [Z.ltb ?a ?b] => destruct (Z.ltb_spec a b)
          end; cbn [andb]); try reflexivity; exfalso; lia.
Qed.

Lemma encode_none (s : str) (c : char) :
  In c s -> Utf8.scalar c = false -> Utf8.encode s = None.
Proof.
  induction s as [|x s IH]; intros Hin Hc; [destruct Hin|].
  cbn [Utf8.encode]. destruct Hin as [-> | Hin].
  - now rewrite (encode_char_none c Hc).
  - rewrite (IH Hin Hc). now destruct (Utf8.encode_char x).
Qed.

Lemma field_data_in (f : str) (c : char) : In c f -> In c (Csv.field_data f).
Proof.
  intros H. unfold Csv.field_data. apply in_flat_map. exists c.
  split; [exact H|]. destruct (c =? Csv.quotechar)%Z; [right|]; now left.
Qed.

Lemma join_append_in (f : str) (q : bool) (c : char) :
  In c f -> In c (Csv.join_append f q).
Proof.
  intros H. unfold Csv.join_append.
  destruct (q || existsb Csv.special f); [|exact H].
  apply in_or_app. right. apply in_or_app. left. now apply field_data_in.
Qed.

Lemma join_fields_in (row : list str) (f : str) (c : char) :
  In f row -> In c f -> In c (Csv.join_fields row).
Proof.
  induction row as [|g row IH]; intros Hf Hc; [destruct Hf|].
  destruct row as [|g2 row].
  - destruct Hf as [-> | []]. now apply join_append_in.
  - rewrite join_fields_cons2. apply in_or_app. destruct Hf as [-> | Hf].
    + left. now apply join_append_in.
    + right. right. now apply IH.
Qed.

Lemma writerow_in (row : list str) (f : str) (c : char) :
  In f row -> In c f -> In c (Csv.writerow row).
Proof.
  intros Hf Hc. unfold Csv.writerow. apply in_or_app. left.
  pose proof (join_fields_in row f c Hf Hc) as H.
  destruct row; [destruct Hf|].
  destruct (Csv.join_fields (s :: row)); [destruct H | exact H].
Qed.

(** X12. When a card holds text that utf-8 cannot encode, writing raises
    the encoding error at that card and leaves a partial file: the header
    row and the rows of the cards before it. *)
Theorem write_csv_partial (good rest : list card) (bad : card) (w : world)
    (f : str) (c : char) :
  output_writable w = true ->
  Forall (fun k => Forall (fun g => Forall (fun x => Utf8.scalar x = true) g)
                          [type k; front k; back k; section k; approved k])
         good ->
  In f [type bad; front bad; back bad; section bad; approved bad] ->
  In c f -> Utf8.scalar c = false ->
  exists bytes,
    write_csv (good ++ bad :: rest) w
    = (Raise UnicodeEncodeError,
       World (existing w) (output_writable w) (Some bytes) (stdout w))
    /\ Utf8.decode bytes
       = Some (Csv.writerow fieldnames
               ++ flat_map (fun k => Csv.writerow
                                       [type k; front k; back k; section k;
                                        approved k]) good).
Proof.
  intros Hw Hgood Hf Hc Hs.
  destruct (write_csv_ok good w Hw Hgood) as (bytes & Hwr & _ & Hdec).
  exists bytes. split; [|exact Hdec].
  assert (Hbad : Utf8.encode (Csv.writerow (dict_to_list bad)) = None).
  { apply (encode_none _ c); [|exact Hs]. now apply (writerow_in _ f). }
  revert Hwr. unfold write_csv, writeheader, io_bind.
  rewrite (open_output_ok w Hw), file_write_written.
  destruct (Utf8.encode (Csv.writerow fieldnames)) as [hb|]; [|discriminate].
  generalize ([] ++ hb). clear -Hbad. intros old.
  revert old. induction good as [|g good IH]; intros old.
  - cbn [writerows app]. unfold io_bind, ret. intros H. injection H as <-.
    now rewrite file_write_written, Hbad.
  - cbn [writerows app]. unfold io_bind. rewrite file_write_written.
    destruct (Utf8.encode (Csv.writerow (dict_to_list g))); [apply IH|].
    discriminate.
Qed.

(** An instance of [write_csv_partial]. *)
Lemma write_csv_partial_witness :
  exists bytes,
    write_csv (sample_cards ++ sample_bad_card :: sample_cards) world_all
    = (Raise UnicodeEncodeError,
       World (existing world_all) (output_writable world_all) (Some bytes)
             (stdout world_all))
    /\ Utf8.decode bytes
       = Some (Csv.writerow fieldnames
               ++ flat_map (fun k => Csv.writerow
                                       [type k; front k; back k; section k;
                                        approved k]) sample_cards).
Proof.
  apply (write_csv_partial sample_cards sample_cards sample_bad_card world_all
           [55296%Z] 55296%Z).
  - reflexivity.
  - apply scalar_cards_spec. vm_compute. reflexivity.
  - right. left. reflexivity.
  - left. reflexivity.
  - reflexivity.
Defined.

(** ** Encodable text through the pipeline *)










(** ** Further properties of the command line *)

(** [main] with a program name and one argument, step by step. *)
Lemma main_two_args
    (lower : str -> str)
    (pdf_pages : str -> result (list (option str)))
    (docx_paragraphs : str -> result (list str))
    (prog path : str) (w : world) :
  main lower pdf_pages docx_paragraphs [prog; path] w
  = if existing w path then
      match extract_text lower pdf_pages docx_paragraphs path with
      | Ok paragraphs =>
          let cards := flat_map emitted (detect_sections paragraphs) in
          match write_csv cards w with
          | (Ok _, w') => (Ok tt, printed w' (success_line (length cards)))
          | (Raise e, w') => (Raise e, w')
          end
      | Raise e => (Raise e, w)
      end
    else (Raise (FileNotFoundError path), w).
Proof.
  unfold main. cbn [length Nat.eqb negb nth].
  unfold io_bind at 1, path_exists.
  destruct (existing w path); cbn [negb]; [|reflexivity].
  unfold io_bind at 1, lift.
  destruct (extract_text lower pdf_pages docx_paragraphs path) as [ps|e];
    [|reflexivity].
  unfold io_bind at 1. rewrite generate_cards_spec.
  unfold io_bind. destruct (write_csv _ w) as [[[]|e] w']; reflexivity.
Qed.



(** X14. A failure of the extraction, whatever it is, ends the run with
    that failure and leaves the world as it was: nothing is written and
    nothing is printed. *)
Theorem main_extraction_failure
    (lower : str -> str)
    (pdf_pages : str -> result (list (option str)))
    (docx_paragraphs : str -> result (list str))
    (prog path : str) (w : world) (e : exn) :
  existing w path = true ->
  extract_text lower pdf_pages docx_paragraphs path = Raise e ->
  main lower pdf_pages docx_paragraphs [prog; path] w = (Raise e, w).
Proof. intros He Hx. now rewrite main_two_args, He, Hx. Qed.

(** An instance of [main_extraction_failure]. *)
Lemma main_extraction_failure_witness :
  main ascii_lower broken_pages no_paragraphs
       [lit "generate_cards.py"; lit "apunts.pdf"] world_all
  = (Raise (OSError (lit "apunts.pdf")), world_all).
Proof.
  apply (main_extraction_failure ascii_lower broken_pages no_paragraphs
           (lit "generate_cards.py") (lit "apunts.pdf") world_all).
  - reflexivity.
  - vm_compute. reflexivity.
Defined.





(** X17. Running twice gives the same file: after a successful run, a
    second run with the same arguments succeeds as well, leaves the output
    file byte for byte as the first run left it, and only prints its line
    once more. *)
Theorem main_idempotent
    (lower : str -> str)
    (pdf_pages : str -> result (list (option str)))
    (docx_paragraphs : str -> result (list str))
    (argv : list str) (w w1 : world) :
  main lower pdf_pages docx_paragraphs argv w = (Ok tt, w1) ->
  exists line,
    main lower pdf_pages docx_paragraphs argv w1
    = (Ok tt,
       World (existing w1) (output_writable w1) (output_file w1)
             (stdout w1 ++ [line])).
Proof.
  intros H.
  destruct argv as [|prog [|path [|x argv]]];
    try (unfold main in H; cbn [length Nat.eqb negb] in H;
         unfold io_bind, print, raise in H; discriminate).
  rewrite main_two_args in H. rewrite main_two_args.
  destruct (existing w path) eqn:He; [|discriminate].
  destruct (extract_text lower pdf_pages docx_paragraphs path) as [ps|e];
    [|discriminate].
  cbv zeta in *. set (cards := flat_map emitted (detect_sections ps)) in *.
  destruct (output_writable w) eqn:Hw.
  2:{ exfalso. revert H. unfold write_csv, io_bind, open_output.
      rewrite Hw. discriminate. }
  destruct (write_csv_uniform cards) as (r & bytes & Hu).
  rewrite (Hu w Hw) in H. destruct r as [[]|e]; [|discriminate].
  injection H as <-.
  cbn [existing printed written]. rewrite He.
  exists (success_line (length cards)).
  rewrite (Hu (printed (written w bytes) (success_line (length cards)))
              Hw).
  reflexivity.
Qed.

(** An instance of [main_idempotent]. *)
Lemma main_idempotent_witness :
  exists line,
    main ascii_lower no_pages sample_docx
         [lit "generate_cards.py"; lit "apunts.docx"]
         (snd (main ascii_lower no_pages sample_docx
                    [lit "generate_cards.py"; lit "apunts.docx"] world_all))
    = (Ok tt,
       World (existing (snd (main ascii_lower no_pages sample_docx
                    [lit "generate_cards.py"; lit "apunts.docx"] world_all)))
             (output_writable (snd (main ascii_lower no_pages sample_docx
                    [lit "generate_cards.py"; lit "apunts.docx"] world_all)))
             (output_file (snd (main ascii_lower no_pages sample_docx
                    [lit "generate_cards.py"; lit "apunts.docx"] world_all)))
             (stdout (snd (main ascii_lower no_pages sample_docx
                    [lit "generate_cards.py"; lit "apunts.docx"] world_all))
              ++ [line])).
Proof.
  apply (main_idempotent ascii_lower no_pages sample_docx
           [lit "generate_cards.py"; lit "apunts.docx"] world_all).
  vm_compute. reflexivity.
Defined.

(** ** The dispatch on the suffix *)

Lemma split_on_plain (d : char) (s cur : str) :
  ~ In d s -> PyStr.split_on d cur s = [cur ++ s].
Proof.
  revert cur. induction s as [|c s IH]; intros cur H; cbn [PyStr.split_on].
  - now rewrite app_nil_r.
  - destruct (Z.eqb_spec c d) as [->|_]; [exfalso; apply H; now left|].
    rewrite IH by (intros Hin; apply H; now right).
    now rewrite <- app_assoc.
Qed.

Lemma split_on_last (d : char) (a name cur : str) :
  ~ In d name ->
  exists pre, PyStr.split_on d cur (a ++ d :: name) = pre ++ [name].
Proof.
  intros H. revert cur. induction a as [|c a IH]; intros cur.
  - cbn [app PyStr.split_on]. rewrite Z.eqb_refl.
    rewrite split_on_plain by exact H. now exists [cur].
  - cbn [app PyStr.split_on]. destruct (c =? d)%Z.
    + destruct (IH []) as [pre E]. rewrite E. now exists (cur :: pre).
    + apply IH.
Qed.

Lemma path_name_last (dir name : str) :
  dir = [] \/ (exists d, dir = d ++ lit "/") ->
  ~ In 47%Z name -> 2 <= length name ->
  path_name (dir ++ name) = name.
Proof.
  intros Hdir Hn Hlen. unfold path_name.
  assert (E : exists pre, PyStr.split_on 47%Z [] (dir ++ name) = pre ++ [name]).
  { destruct Hdir as [-> | [d ->]].
    - exists []. now rewrite split_on_plain.
    - rewrite <- app_assoc. change (lit "/" ++ name) with (47%Z :: name).
      now apply split_on_last. }
  destruct E as [pre ->]. rewrite filter_app. cbn [filter].
  destruct name as [|x [|y name]]; try (cbn [length] in Hlen; lia).
  cbn [negb]. now rewrite last_last.
Qed.

Lemma rfind_period_none (s : str) : ~ In 46%Z s -> rfind_period s = None.
Proof.
  induction s as [|c s IH]; intros H; [reflexivity|].
  cbn [rfind_period]. rewrite IH by (intros Hin; apply H; now right).
  destruct (Z.eqb_spec c 46) as [->|_]; [exfalso; apply H; now left|reflexivity].
Qed.

Lemma rfind_period_last (stem ext : str) :
  ~ In 46%Z ext -> rfind_period (stem ++ 46%Z :: ext) = Some (length stem).
Proof.
  intros H. induction stem as [|c stem IH].
  - cbn [app rfind_period length]. now rewrite rfind_period_none.
  - cbn [app rfind_period length]. now rewrite IH.
Qed.

Lemma suffix_of_name (dir stem ext : str) :
  dir = [] \/ (exists d, dir = d ++ lit "/") ->
  stem <> [] -> ext <> [] ->
  ~ In 47%Z stem -> ~ In 47%Z ext -> ~ In 46%Z ext ->
  suffix (dir ++ stem ++ lit "." ++ ext) = lit "." ++ ext.
Proof.
  intros Hdir Hstem Hext Hs He Hp.
  change (lit "." ++ ext) with (46%Z :: ext).
  unfold suffix. rewrite path_name_last; [|exact Hdir| |].
  - rewrite rfind_period_last by exact Hp.
    assert (Hl : (0 <? length stem) && (length stem <? length (stem ++ 46%Z :: ext) - 1)
                 = true).
    { rewrite length_app. cbn [length].
      destruct stem; [contradiction|]. destruct ext; [contradiction|].
      cbn [length]. apply andb_true_iff. split; apply Nat.ltb_lt; lia. }
    rewrite Hl. rewrite skipn_app, skipn_all, Nat.sub_diag. reflexivity.
  - intros Hin. apply in_app_or in Hin as [Hin | [Hin | Hin]]; auto.
    discriminate.
  - rewrite length_app. cbn [length]. destruct stem; [contradiction|].
    cbn [length]. lia.
Qed.

(** X18. The format is read from the last extension of the file name: for
    a file name made of a stem, a period and an extension without period,
    in any directory, the suffix is the period and the extension, and the
    text comes from the PDF extractor when that suffix lower-cases to .pdf
    and from the DOCX extractor when it lower-cases to .docx. *)
Theorem extract_text_dispatch
    (lower : str -> str)
    (pdf_pages : str -> result (list (option str)))
    (docx_paragraphs : str -> result (list str))
    (dir stem ext : str) :
  dir = [] \/ (exists d, dir = d ++ lit "/") ->
  stem <> [] -> ext <> [] ->
  ~ In 47%Z stem -> ~ In 47%Z ext -> ~ In 46%Z ext ->
  suffix (dir ++ stem ++ lit "." ++ ext) = lit "." ++ ext
  /\ (lower (lit "." ++ ext) = lit ".pdf" ->
      extract_text lower pdf_pages docx_paragraphs (dir ++ stem ++ lit "." ++ ext)
      = extract_pdf pdf_pages (dir ++ stem ++ lit "." ++ ext))
  /\ (lower (lit "." ++ ext) = lit ".docx" ->
      extract_text lower pdf_pages docx_paragraphs (dir ++ stem ++ lit "." ++ ext)
      = extract_docx docx_paragraphs (dir ++ stem ++ lit "." ++ ext)).
Proof.
  intros Hdir Hstem Hext Hs He Hp.
  pose proof (suffix_of_name dir stem ext Hdir Hstem Hext Hs He Hp) as E.
  split; [exact E|]. unfold extract_text. rewrite E. split; intros Hl; rewrite Hl.
  - reflexivity.
  - reflexivity.
Qed.

(** An instance of [extract_text_dispatch]. *)
Lemma extract_text_dispatch_witness :
  suffix (lit "docs/" ++ lit "apunts.v2" ++ lit "." ++ lit "PDF")
  = lit "." ++ lit "PDF"
  /\ (ascii_lower (lit "." ++ lit "PDF") = lit ".pdf" ->
      extract_text ascii_lower sample_pdf sample_docx
        (lit "docs/" ++ lit "apunts.v2" ++ lit "." ++ lit "PDF")
      = extract_pdf sample_pdf
          (lit "docs/" ++ lit "apunts.v2" ++ lit "." ++ lit "PDF"))
  /\ (ascii_lower (lit "." ++ lit "PDF") = lit ".docx" ->
      extract_text ascii_lower sample_pdf sample_docx
        (lit "docs/" ++ lit "apunts.v2" ++ lit "." ++ lit "PDF")
      = extract_docx sample_docx
          (lit "docs/" ++ lit "apunts.v2" ++ lit "." ++ lit "PDF")).
Proof.
  apply (extract_text_dispatch ascii_lower sample_pdf sample_docx
           (lit "docs/") (lit "apunts.v2") (lit "PDF")).
  - right. exists (lit "docs"). reflexivity.
  - discriminate.
  - discriminate.
  - vm_compute. intuition discriminate.
  - vm_compute. intuition discriminate.
  - vm_compute. intuition discriminate.
Defined.

(** ** What a successful run guarantees *)

Lemma encode_some_scalar (s : str) (bs : list Z) :
  Utf8.encode s = Some bs -> scalar_text s.
Proof.
  intros H. apply Forall_forall. intros c Hc.
  destruct (Utf8.scalar c) eqn:E; [reflexivity|].
  rewrite (encode_none s c Hc E) in H. discriminate.
Qed.

Lemma encode_decode (s : str) (bs : list Z) :
  Utf8.encode s = Some bs -> Utf8.decode bs = Some s.
Proof.
  intros H. destruct (decode_encode s (encode_some_scalar s bs H))
    as (bs' & E & D).
  assert (bs' = bs) as -> by congruence.
  specialize (D []). rewrite app_nil_r in D. rewrite D.
  cbn [Utf8.decode option_map]. now rewrite app_nil_r.
Qed.

Lemma writerows_inv (cards : list card) :
  forall old w w',
    writerows cards (written w old) = (Ok tt, w') ->
    exists bs,
      Utf8.encode (flat_map (fun c => Csv.writerow (dict_to_list c)) cards)
      = Some bs
      /\ w' = written w (old ++ bs).
Proof.
  induction cards as [|c cards IH]; intros old w w' H.
  - exists []. split; [reflexivity|]. rewrite app_nil_r.
    cbn [writerows] in H. unfold ret in H. congruence.
  - cbn [writerows] in H. unfold io_bind in H.
    rewrite file_write_written in H.
    destruct (Utf8.encode (Csv.writerow (dict_to_list c))) as [b1|] eqn:E1;
      [|discriminate].
    destruct (IH _ _ _ H) as (b2 & E2 & ->).
    exists (b1 ++ b2). split; [|now rewrite app_assoc].
    cbn [flat_map]. now apply encode_app.
Qed.

Lemma write_csv_inv (cards : list card) (w w' : world) :
  write_csv cards w = (Ok tt, w') ->
  output_writable w = true
  /\ exists bytes,
       w' = written w bytes /\ Utf8.encode (csv_text cards) = Some bytes.
Proof.
  unfold write_csv, writeheader, io_bind. intros H.
  destruct (output_writable w) eqn:Hw.
  2:{ unfold open_output in H. rewrite Hw in H. discriminate. }
  split; [reflexivity|].
  rewrite (open_output_ok w Hw), file_write_written in H.
  destruct (Utf8.encode (Csv.writerow fieldnames)) as [hb|] eqn:Eh;
    [|discriminate].
  destruct (writerows_inv _ _ _ _ H) as (bs & Eb & ->).
  exists (hb ++ bs). split; [reflexivity|].
  unfold csv_text. now apply encode_app.
Qed.



(** X20. A run that ends without error has done all of its work: it was
    given one path, the path exists, its text was extracted, the output
    file holds, in utf-8, the header row and one row for every card made
    from the sectioned paragraphs, and the one line printed gives their
    number. *)
Theorem main_ok_means_written
    (lower : str -> str)
    (pdf_pages : str -> result (list (option str)))
    (docx_paragraphs : str -> result (list str))
    (argv : list str) (w w' : world) :
  main lower pdf_pages docx_paragraphs argv w = (Ok tt, w') ->
  exists prog path paragraphs cards bytes,
    argv = [prog; path] /\ existing w path = true
    /\ extract_text lower pdf_pages docx_paragraphs path = Ok paragraphs
    /\ generate_cards (detect_sections paragraphs) = Ok cards
    /\ w' = World (existing w) (output_writable w) (Some bytes)
                  (stdout w
                   ++ [lit "✔ " ++ str_of_nat (length cards)
                       ++ lit " cartes suggerides creades a "
                       ++ lit "output/suggested_cards.csv"])
    /\ Utf8.decode bytes
       = Some (Csv.writerow [lit "type"; lit "front"; lit "back";
                             lit "section"; lit "approved"]
               ++ flat_map (fun k => Csv.writerow
                                       [type k; front k; back k; section k;
                                        approved k]) cards).
Proof.
  intros H.
  destruct argv as [|prog [|path [|x argv]]];
    try (unfold main in H; cbn [length Nat.eqb negb] in H;
         unfold io_bind, print, raise in H; discriminate).
  rewrite main_two_args in H.
  destruct (existing w path) eqn:He; [|discriminate].
  destruct (extract_text lower pdf_pages docx_paragraphs path) as [ps|e] eqn:Ex;
    [|discriminate].
  cbv zeta in H. set (cards := flat_map emitted (detect_sections ps)) in *.
  destruct (write_csv cards w) as [[[]|e] w1] eqn:Ew; [|discriminate].
  destruct (write_csv_inv cards w w1 Ew) as (Hw & bytes & -> & Hb).
  injection H as <-.
  exists prog, path, ps, cards, bytes.
  split; [reflexivity|]. split; [exact He|]. split; [exact Ex|].
  split; [apply generate_cards_spec|]. split; [reflexivity|].
  now apply encode_decode in Hb.
Qed.

(** An instance of [main_ok_means_written]. *)
Lemma main_ok_means_written_witness :
  exists prog path paragraphs cards bytes,
    [lit "generate_cards.py"; lit "buit.docx"] = [prog; path]
    /\ existing world_all path = true
    /\ extract_text ascii_lower no_pages no_paragraphs path = Ok paragraphs
    /\ generate_cards (detect_sections paragraphs) = Ok cards
    /\ World (existing world_all) (output_writable world_all)
             (Some (Utf8.bytes_of_string "type,front,back,section,approved"%string
                    ++ [13; 10]%Z))
             (stdout world_all
              ++ [lit "✔ 0 cartes suggerides creades a output/suggested_cards.csv"])
       = World (existing world_all) (output_writable world_all) (Some bytes)
               (stdout world_all
                ++ [lit "✔ " ++ str_of_nat (length cards)
                    ++ lit " cartes suggerides creades a "
                    ++ lit "output/suggested_cards.csv"])
    /\ Utf8.decode bytes
       = Some (Csv.writerow [lit "type"; lit "front"; lit "back";
                             lit "section"; lit "approved"]
               ++ flat_map (fun k => Csv.writerow
                                       [type k; front k; back k; section k;
                                        approved k]) cards).
Proof.
  apply (main_ok_means_written ascii_lower no_pages no_paragraphs
           [lit "generate_cards.py"; lit "buit.docx"] world_all).
  vm_compute. reflexivity.
Defined.
